(** * collectd-docker: the per-container monitor (collector/monitor.go)

    A shallow embedding of [collector/monitor.go]: identity resolution from
    container labels and environment entries, the expansion of the app and
    task identities into tags, the construction of a [Monitor] and the
    forwarding loop that thins the stats stream.

    Go strings are byte strings: [string] (a list of [ascii]) models them.
    Go maps with string keys are [gmap string string]; a function that
    mutates the map it is given returns the updated map.  Go's [int] is
    modelled as [Z]; where the program increments a counter the 64-bit
    wrap-around is written out. *)

From Stdlib Require Import ZArith Lia Ascii.
From stdpp Require Import base decidable option numbers list strings gmap fin_maps pretty.

(** ** The Go library functions the file calls *)

Module strings.

(** [s[:n]] (for [n <= len(s)]). *)
Fixpoint slice_to (s : string) (n : nat) : string :=
  match n, s with
  | S n', String a s' => String a (slice_to s' n')
  | _, _ => ""
  end.

(** [s[n:]] (for [n <= len(s)]). *)
Fixpoint slice_from (s : string) (n : nat) : string :=
  match n, s with
  | S n', String _ s' => slice_from s' n'
  | _, _ => s
  end.

(** [strings.HasPrefix]:
    [len(s) >= len(prefix) && s[:len(prefix)] == prefix]. *)
Definition HasPrefix (s prefix : string) : bool :=
  bool_decide (String.length prefix ≤ String.length s
               ∧ slice_to s (String.length prefix) = prefix).

(** [strings.TrimPrefix]: [s] without the leading [prefix], or [s]
    itself when it does not start with [prefix]. *)
Definition TrimPrefix (s prefix : string) : string :=
  if HasPrefix s prefix then slice_from s (String.length prefix) else s.

(** Cutting a string at every byte that satisfies [is_sep]; the pieces
    between the cuts are kept, empty ones included, so there is always
    one piece more than there are separator bytes. *)
Fixpoint cut (is_sep : ascii → bool) (s : string) : list string :=
  match s with
  | "" => [""]
  | String a s' =>
      if is_sep a then "" :: cut is_sep s'
      else match cut is_sep s' with
           | w :: ws => String a w :: ws
           | [] => [String a ""]
           end
  end.

(** No byte of [s] satisfies [is_sep]. *)
Fixpoint none_sep (is_sep : ascii → bool) (s : string) : bool :=
  match s with
  | "" => true
  | String a s' => negb (is_sep a) && none_sep is_sep s'
  end.

(** The number of bytes of [s] that satisfy [is_sep]. *)
Fixpoint count_sep (is_sep : ascii → bool) (s : string) : nat :=
  match s with
  | "" => 0
  | String a s' => (if is_sep a then 1 else 0) + count_sep is_sep s'
  end.

(** [strings.Split(s, sep)] for a separator of one byte. *)
Definition Split (s : string) (sep : ascii) : list string :=
  cut (λ a, bool_decide (a = sep)) s.

(** [strings.Join]. *)
Fixpoint Join (elems : list string) (sep : string) : string :=
  match elems with
  | [] => ""
  | [e] => e
  | e :: rest => e +:+ sep +:+ Join rest sep
  end.

End strings.

Module strconv.
(** [strconv.Itoa]: the decimal digits, with a leading minus sign for
    negative numbers. *)
Definition Itoa (i : Z) : string := pretty i.
End strconv.

Module regexp.
(** [regexp.MustCompile("[-.]").Split(s, -1)].  Every match of the
    class is exactly one byte, so no match is empty and the text after
    the last match is always kept: the result is [s] cut at every
    ['-'] and every ['.']; the empty string gives one empty piece. *)
Definition dash_or_dot (a : ascii) : bool :=
  bool_decide (a = "-"%char) || bool_decide (a = "."%char).

Definition Split_dash_dot (s : string) : list string :=
  strings.cut dash_or_dot s.
End regexp.

(** [for i := lo; i < hi; i++ { body }] over a state [St]. *)
Definition for_range {St : Type} (lo hi : nat) (body : nat → St → St) (st : St) : St :=
  foldl (λ st i, body i st) st (seq lo (hi - lo)).

(** ** The container description returned by the docker client *)

Record docker_Config := {
  Labels : gmap string string;
  Env : list string
}.

Record docker_Container := {
  ID : string;
  Name : string;
  Config : docker_Config
}.

Section Collector.

(** [os.Getenv] at process start: the value of a variable of the
    collector's own environment, empty when it is not set. *)
Variable os_Getenv : string → string.

(** The opaque stats record of the docker client, and the errors the
    client's calls return. *)
Variable docker_Stats : Type.
Variable docker_error : Type.

Definition Getenv (env defaultValue : string) : string :=
  let value := os_Getenv env in
  if bool_decide (0 < String.length value) then value else defaultValue.

Definition appLabel : string := Getenv "APP_LABEL_KEY" "app_id".
Definition appLocationLabel : string := "collectd_docker_app_label".
Definition taskLabel : string := Getenv "TASK_LABEL_KEY" "collectd_docker_task".
Definition taskLocationLabel : string := "collectd_docker_task_label".

Definition appEnvPrefix : string := Getenv "APP_ENV_KEY" "MARATHON_APP_ID" +:+ "=".
Definition appEnvLocationPrefix : string := "COLLECTD_DOCKER_APP_ENV=".
Definition appEnvLocationTrimPrefix : string := "COLLECTD_DOCKER_APP_ENV_TRIM_PREFIX=".
Definition taskEnvPrefix : string := Getenv "TASK_ENV_KEY" "MESOS_TASK_ID" +:+ "=".
Definition taskEnvLocationPrefix : string := "COLLECTD_DOCKER_TASK_ENV=".
Definition taskEnvLocationTrimPrefix : string := "COLLECTD_DOCKER_TASK_ENV_TRIM_PREFIX=".

Definition defaultTask : string := "default".

(** ** Identity resolution *)

(** The [range] loop of [extractEnv] over [c.Config.Env]. *)
Fixpoint extractEnv_range (env : list string) (envPrefix : string) : string :=
  match env with
  | [] => ""
  | e :: rest =>
      if strings.HasPrefix e envPrefix then strings.TrimPrefix e envPrefix
      else extractEnv_range rest envPrefix
  end.

Definition extractEnv (c : docker_Container) (envPrefix : string) : string :=
  extractEnv_range (Env (Config c)) envPrefix.

(** No entry of [env] starts with [envPrefix]. *)
Definition no_entry_with (envPrefix : string) (env : list string) : Prop :=
  Forall (λ e, strings.HasPrefix e envPrefix = false) env.

Definition extractMetadata (c : docker_Container) (label envPrefix missing : string) : string :=
  match Labels (Config c) !! label with
  | Some app => app
  | None =>
      let env := extractEnv c envPrefix in
      if bool_decide (env ≠ "") then env else missing
  end.

(** The value of [app] in [extractApp] before the trim prefix is applied
    (lines 118 to 123). *)
Definition resolveApp (c : docker_Container) : string :=
  let location := extractMetadata c appLocationLabel appEnvLocationPrefix "" in
  if bool_decide (location ≠ "")
  then extractMetadata c location (location +:+ "=") ""
  else extractMetadata c appLabel appEnvPrefix "".

Definition extractApp (c : docker_Container) : string :=
  let app := resolveApp c in
  let prefix := extractEnv c appEnvLocationTrimPrefix in
  if bool_decide (prefix ≠ "") then strings.TrimPrefix app prefix else app.

(** The value of [task] in [extractTask] before the trim prefix is
    applied (lines 136 to 141). *)
Definition resolveTask (c : docker_Container) : string :=
  let location := extractMetadata c taskLocationLabel taskEnvLocationPrefix "" in
  if bool_decide (location ≠ "")
  then extractMetadata c location (location +:+ "=") defaultTask
  else extractMetadata c taskLabel taskEnvPrefix defaultTask.

Definition extractTask (c : docker_Container) : string :=
  let task := resolveTask c in
  let prefix := extractEnv c taskEnvLocationTrimPrefix in
  if bool_decide (prefix ≠ "") then strings.TrimPrefix task prefix else task.

(** ** Expansion into tags *)

Definition extractTagsFromApp (tags : gmap string string) (app : string) : gmap string string :=
  let tags := <["app_id" := app]> tags in
  let split := strings.Split app "/" in
  let tags := <["app" := split !!! (length split - 1)]> tags in
  let split := take (length split - 1) split in
  if bool_decide (length split ≤ 1) then
    <["group" := "/"]> tags
  else
    let tags := <["group" := strings.Join split "/"]> tags in
    for_range 1 (length split)
      (λ i tags, <["group" +:+ strconv.Itoa (Z.of_nat i)
                     := strings.Join (take (i + 1) split) "/"]> tags)
      tags.

Definition extractTagsFromTask (tags : gmap string string) (task : string) : gmap string string :=
  let split := regexp.Split_dash_dot task in
  let tags := <["task" := task]> tags in
  for_range 0 (length split)
    (λ i tags, <["task" +:+ strconv.Itoa (Z.of_nat i + 1) := split !!! i]> tags)
    tags.

(** ** The monitor of one container *)

(** The sentinel [ErrNoNeedToMonitor] is allocated by [errors.New] in
    this package; the errors of the docker client are values of the
    client's own. *)
Inductive error :=
| ErrNoNeedToMonitor
| client_error (err : docker_error).

(** The two calls of the docker client the monitor uses.  [Stats] sends
    the stats records of the container on the channel it is given, one
    by one, closes the channel and returns: the records it sends and
    the error it returns stand for the call. *)
Record MonitorDockerClient := {
  InspectContainer : string → docker_Container + docker_error;
  client_Stats : string → list docker_Stats * option docker_error
}.

Record Monitor := {
  client : MonitorDockerClient;
  id : string;
  app : string;
  task : string;
  tags : gmap string string;
  interval : Z
}.

(** Modelled from the spec: the struct [Stats] that is sent downstream
    is declared outside monitor.go; the spec gives it as the pair of a
    tag set and a snapshot, and line 99 fills its fields [Tags] and
    [Stats]. *)
Record Stats := {
  Tags : gmap string string;
  Stats_record : docker_Stats
}.

(** [log.Printf] writes to the process log only and is left out. *)
Definition NewMonitor (c : MonitorDockerClient) (id : string) (interval : Z)
    : option Monitor * option error :=
  let tags : gmap string string := ∅ in
  match InspectContainer c id with
  | inr err => (None, Some (client_error err))
  | inl container =>
      let app := extractApp container in
      if bool_decide (app = "") then (None, Some ErrNoNeedToMonitor)
      else
        let tags := extractTagsFromApp tags app in
        let task := extractTask container in
        let tags := extractTagsFromTask tags task in
        (Some {| client := c; id := ID container; app := app; task := task;
                 tags := tags; interval := interval |}, None)
  end.

(** [i++] on a 64-bit [int]. *)
Definition int_wrap (z : Z) : Z := ((z + 2 ^ 63) `mod` 2 ^ 64 - 2 ^ 63)%Z.

(** How the goroutine of [handle] ends: the input channel is closed and
    the [range] loop is left, or the remainder [i % m.interval] is taken
    with a zero divisor and the Go runtime panics. *)
Inductive goroutine_end :=
| range_closed
| panic_divide_by_zero.

(** The goroutine started by [handle] (lines 91 to 106), from counter
    value [i], on the records [received] from the channel [in]: the
    values it sends on [ch], in the order they are sent, and how it
    ends.  Go's [%] truncates towards zero, as [Z.rem] does. *)
Fixpoint handle_go (m : Monitor) (i : Z) (received : list docker_Stats)
    : list Stats * goroutine_end :=
  match received with
  | [] => ([], range_closed)
  | s :: rest =>
      if bool_decide (interval m = 0%Z) then ([], panic_divide_by_zero)
      else if bool_decide (Z.rem i (interval m) ≠ 0%Z) then
        handle_go m (int_wrap (i + 1)) rest
      else
        let '(sent, e) := handle_go m (int_wrap (i + 1)) rest in
        ({| Tags := tags m; Stats_record := s |} :: sent, e)
  end.

(** [handle]: what is sent on [ch] while the client streams, how the
    goroutine ends, and the error of the client's [Stats] call. *)
Definition handle (m : Monitor) : list Stats * goroutine_end * option docker_error :=
  let '(received, err) := client_Stats (client m) (id m) in
  (handle_go m 0 received, err).

End Collector.

Arguments ErrNoNeedToMonitor {docker_error}.
Arguments client_error {docker_error} err.
Arguments InspectContainer {docker_Stats docker_error} _ _.
Arguments client_Stats {docker_Stats docker_error} _ _.
Arguments client {docker_Stats docker_error} _.
Arguments id {docker_Stats docker_error} _.
Arguments app {docker_Stats docker_error} _.
Arguments task {docker_Stats docker_error} _.
Arguments tags {docker_Stats docker_error} _.
Arguments interval {docker_Stats docker_error} _.
Arguments Tags {docker_Stats} _.
Arguments Stats_record {docker_Stats} _.
Arguments Build_Stats {docker_Stats} _ _.
Arguments NewMonitor os_Getenv {docker_Stats docker_error} c id interval.
Arguments handle_go {docker_Stats docker_error} m i received.
Arguments handle {docker_Stats docker_error} m.

(** ** Sample containers, clients and monitors *)

(** The collector's own environment with none of its keys set. *)
Definition no_env : string → string := λ _, "".

Definition container_with (labels : list (string * string)) (env : list string)
    : docker_Container :=
  {| ID := "4f1d2c"; Name := "/sample";
     Config := {| Labels := list_to_map labels; Env := env |} |}.

Definition c_api : docker_Container :=
  container_with [("app_id", "/infra/web/api")]
                 ["PATH=/bin"; "MESOS_TASK_ID=worker-7.canary"].

Definition c_dangling : docker_Container :=
  container_with [("collectd_docker_app_label", "service");
                  ("app_id", "/infra/web/api")] [].

Definition c_located : docker_Container :=
  container_with [("collectd_docker_app_label", "service");
                  ("service", "svc-42"); ("app_id", "other")] [].

Definition c_trim : docker_Container :=
  container_with [("app_id", "/prod/web")]
                 ["COLLECTD_DOCKER_APP_ENV_TRIM_PREFIX=/prod"].

Definition c_env : docker_Container :=
  container_with [] ["A=1"; "KEY=first"; "KEY=second"].

Definition sample_client : MonitorDockerClient nat string :=
  {| InspectContainer := λ cid,
       if bool_decide (cid = "4f1d2c") then inl c_api else inr "no such container";
     client_Stats := λ _, ([10; 11; 12; 13; 14; 15; 16], None) |}.

Definition m3 : Monitor nat string :=
  {| client := sample_client; id := "4f1d2c"; app := "/infra/web/api";
     task := "default"; tags := {[ "app" := "api" ]}; interval := 3 |}.

Definition c_names : docker_Container :=
  container_with [] ["APP_ENVIRONMENT=prod"; "PATH=/bin"].

Definition c_empty_task : docker_Container :=
  container_with [("app_id", "/infra/web/api"); ("collectd_docker_task", "")]
                 ["MESOS_TASK_ID=worker-7.canary"].

Definition c_trimmed_away : docker_Container :=
  container_with [("app_id", "/prod")]
                 ["COLLECTD_DOCKER_APP_ENV_TRIM_PREFIX=/prod"].

(** A client that knows its containers by name. *)
Definition name_client : MonitorDockerClient nat string :=
  {| InspectContainer := λ cid,
       if bool_decide (cid = "web") then inl c_api
       else if bool_decide (cid = "gone") then inl c_trimmed_away
       else if bool_decide (cid = "svc") then inl c_located
       else inr "no such container";
     client_Stats := λ _, ([], None) |}.

Definition m_minus1 : Monitor nat string :=
  {| client := sample_client; id := "4f1d2c"; app := "/infra/web/api";
     task := "default"; tags := {[ "app" := "api" ]}; interval := -1 |}.

Definition m_minus3 : Monitor nat string :=
  {| client := sample_client; id := "4f1d2c"; app := "/infra/web/api";
     task := "default"; tags := {[ "app" := "api" ]}; interval := -3 |}.


(** * Properties *)

Section Claims.

Variable os_Getenv : string → string.
Variables docker_Stats docker_error : Type.

(** ** The library functions *)

Section string_facts.

Lemma slice_to_app (p r : string) :
  strings.slice_to (p +:+ r) (String.length p) = p.
Proof. induction p as [|a p IH]; destruct r; simpl; f_equal; auto. Qed.

Lemma slice_from_app (p r : string) :
  strings.slice_from (p +:+ r) (String.length p) = r.
Proof. induction p as [|a p IH]; [by destruct r|]. simpl. apply IH. Qed.

Lemma slice_to_from (s : string) (n : nat) :
  strings.slice_to s n +:+ strings.slice_from s n = s.
Proof.
  revert n. induction s as [|a s IH]; intros [|n]; try done.
  change (String a (strings.slice_to s n +:+ strings.slice_from s n) = String a s).
  by rewrite IH.
Qed.

Lemma app_empty_str (s : string) : s +:+ "" = s.
Proof.
  induction s as [|a s IH]; [done|].
  change (String a (s +:+ "") = String a s). by rewrite IH.
Qed.

Lemma length_app_str (p r : string) :
  String.length (p +:+ r) = String.length p + String.length r.
Proof. induction p; simpl; auto. Qed.

(** [HasPrefix s p] holds exactly when [s] is [p] followed by something. *)
Lemma HasPrefix_true (s p : string) :
  strings.HasPrefix s p = true ↔ ∃ r, s = p +:+ r.
Proof.
  unfold strings.HasPrefix. rewrite bool_decide_eq_true. split.
  - intros [_ Hp]. exists (strings.slice_from s (String.length p)).
    symmetry. etrans; [|apply (slice_to_from s (String.length p))].
    by rewrite Hp.
  - intros [r ->]. split; [rewrite length_app_str; lia | apply slice_to_app].
Qed.

Lemma HasPrefix_app (p r : string) : strings.HasPrefix (p +:+ r) p = true.
Proof. apply HasPrefix_true. by exists r. Qed.

Lemma TrimPrefix_app (p r : string) : strings.TrimPrefix (p +:+ r) p = r.
Proof. unfold strings.TrimPrefix. by rewrite HasPrefix_app, slice_from_app. Qed.

Lemma TrimPrefix_no_prefix (s p : string) :
  strings.HasPrefix s p = false → strings.TrimPrefix s p = s.
Proof. unfold strings.TrimPrefix. by intros ->. Qed.

Lemma cut_cons (f : ascii → bool) (s : string) :
  ∃ w ws, strings.cut f s = w :: ws.
Proof.
  induction s as [|a s (w & ws & IH)]; simpl; [by eauto|].
  destruct (f a); [by eauto|]. rewrite IH. by eauto.
Qed.

Lemma cut_length_pos (f : ascii → bool) (s : string) :
  0 < length (strings.cut f s).
Proof. destruct (cut_cons f s) as (w & ws & ->). simpl. lia. Qed.

(** There is one piece more than there are separator bytes. *)
Lemma cut_length (f : ascii → bool) (s : string) :
  length (strings.cut f s) = S (strings.count_sep f s).
Proof.
  induction s as [|a s IH]; simpl; [done|].
  destruct (f a); simpl; [by rewrite IH|].
  destruct (cut_cons f s) as (w & ws & Hc). rewrite Hc in *. simpl in *. lia.
Qed.

(** Joining the pieces with the separator gives the string back. *)
Lemma Join_Split (s : string) (sep : ascii) :
  strings.Join (strings.Split s sep) (String sep "") = s.
Proof.
  unfold strings.Split. induction s as [|a s IH]; [done|]. simpl.
  destruct (cut_cons (λ a, bool_decide (a = sep)) s) as (w & ws & Hc).
  rewrite Hc in *. case_bool_decide as Ha.
  - subst a. simpl in *. by rewrite IH.
  - destruct ws; simpl in *; by rewrite <- IH.
Qed.

(** A string without separator bytes is its own single piece. *)
Lemma cut_none_sep (f : ascii → bool) (s : string) :
  strings.none_sep f s = true → strings.cut f s = [s].
Proof.
  induction s as [|a s IH]; simpl; [done|].
  intros [Ha Hs]%andb_true_iff. apply negb_true_iff in Ha.
  by rewrite Ha, IH.
Qed.

(** No piece contains a separator byte. *)
Lemma cut_pieces_none_sep (f : ascii → bool) (s : string) :
  Forall (λ w, strings.none_sep f w = true) (strings.cut f s).
Proof.
  induction s as [|a s IH]; simpl; [by repeat constructor|].
  destruct (f a) eqn:Ha; [by constructor|].
  destruct (strings.cut f s) as [|w ws]; [by repeat constructor; simpl; rewrite Ha|].
  inversion IH; subst. constructor; [|done]. simpl. by rewrite Ha.
Qed.

Lemma Itoa_inj (i j : Z) : strconv.Itoa i = strconv.Itoa j → i = j.
Proof. apply (inj pretty). Qed.

End string_facts.

Section itoa_facts.

Lemma pretty_N_go_grows (x : N) (s : string) :
  String.length s ≤ String.length (pretty_N_go x s).
Proof.
  revert s. induction (N.lt_wf_0 x) as [x _ IH]; intros s.
  destruct (decide (x = 0%N)) as [->|Hx]; [by rewrite pretty_N_go_0|].
  rewrite pretty_N_go_step by lia.
  etrans; [|apply IH, N.div_lt; lia]. simpl. lia.
Qed.

Lemma pretty_N_nonempty (x : N) : pretty x ≠ "".
Proof.
  unfold pretty, pretty_N. case_decide as Hx; [done|].
  rewrite pretty_N_go_step by lia. intros Hs.
  pose proof (pretty_N_go_grows (x `div` 10)
                (String (pretty_N_char (x `mod` 10)) "")) as Hl.
  rewrite Hs in Hl. simpl in Hl. lia.
Qed.

Lemma Itoa_nonempty (i : Z) : strconv.Itoa i ≠ "".
Proof.
  unfold strconv.Itoa, pretty, pretty_Z. destruct i as [|p|p]; [done| |done].
  apply (pretty_N_nonempty (Npos p)).
Qed.

(** A key with a number appended differs from the bare key, and two
    numbered keys with the same stem differ when the numbers do. *)
Lemma numbered_key_ne_stem (stem : string) (i : Z) :
  stem +:+ strconv.Itoa i ≠ stem.
Proof.
  induction stem as [|a stem IH]; simpl.
  - apply Itoa_nonempty.
  - intros [= H]. by apply IH.
Qed.

Lemma numbered_key_inj (stem : string) (i j : Z) :
  stem +:+ strconv.Itoa i = stem +:+ strconv.Itoa j → i = j.
Proof. intros H. by apply Itoa_inj, (inj (String.app stem)). Qed.

End itoa_facts.

Section for_range_facts.

Context {St : Type}.

Lemma for_range_empty (lo hi : nat) (body : nat → St → St) (st : St) :
  hi ≤ lo → for_range lo hi body st = st.
Proof. intros H. unfold for_range. by replace (hi - lo) with 0 by lia. Qed.

(** The last round of a loop that runs at least once. *)
Lemma for_range_last (lo hi : nat) (body : nat → St → St) (st : St) :
  lo ≤ hi →
  for_range lo (S hi) body st = body hi (for_range lo hi body st).
Proof.
  intros H. unfold for_range.
  replace (S hi - lo) with (S (hi - lo)) by lia.
  rewrite seq_S, foldl_app. simpl. by replace (lo + (hi - lo)) with hi by lia.
Qed.

End for_range_facts.

Section insert_loop.

Variables (key : nat → string) (val : nat → string) (lo : nat).

(** A loop that stores [val i] under [key i] leaves every other key as
    it was. *)
Lemma insert_loop_other (hi : nat) (m : gmap string string) (k : string) :
  (∀ i, lo ≤ i < hi → key i ≠ k) →
  for_range lo hi (λ i m, <[key i := val i]> m) m !! k = m !! k.
Proof.
  induction hi as [|hi IH]; intros Hk.
  - by rewrite for_range_empty by lia.
  - destruct (decide (lo ≤ hi)) as [Hle|Hgt].
    + rewrite for_range_last by done.
      rewrite lookup_insert_ne by (apply Hk; lia). apply IH.
      intros i Hi. apply Hk. lia.
    + by rewrite for_range_empty by lia.
Qed.

(** With keys that are pairwise different, every key of the loop holds
    the value of its own round afterwards. *)
Lemma insert_loop_lookup (hi : nat) (m : gmap string string) (j : nat) :
  (∀ i i', lo ≤ i < hi → lo ≤ i' < hi → key i = key i' → i = i') →
  lo ≤ j < hi →
  for_range lo hi (λ i m, <[key i := val i]> m) m !! key j = Some (val j).
Proof.
  induction hi as [|hi IH]; intros Hinj Hj; [lia|].
  rewrite for_range_last by lia.
  destruct (decide (j = hi)) as [->|Hne].
  - apply lookup_insert_eq.
  - rewrite lookup_insert_ne.
    + apply IH; [|lia]. intros i i' ??. apply Hinj; lia.
    + intros Heq. apply Hne. symmetry. apply Hinj; [lia..|done].
Qed.

End insert_loop.

(** * Identity resolution *)

Section resolution.

Lemma extractEnv_range_none (env : list string) (envPrefix : string) :
  no_entry_with envPrefix env → extractEnv_range env envPrefix = "".
Proof. induction 1 as [|e env He _ IH]; simpl; [done|]. by rewrite He. Qed.

Lemma extractEnv_range_first (before after : list string) (envPrefix rest : string) :
  no_entry_with envPrefix before →
  extractEnv_range (before ++ (envPrefix +:+ rest) :: after) envPrefix = rest.
Proof.
  induction 1 as [|e env He _ IH]; simpl.
  - by rewrite HasPrefix_app, TrimPrefix_app.
  - by rewrite He.
Qed.

Lemma extractMetadata_label (c : docker_Container) (label envPrefix missing v : string) :
  Labels (Config c) !! label = Some v →
  extractMetadata c label envPrefix missing = v.
Proof. unfold extractMetadata. by intros ->. Qed.

Lemma extractMetadata_env (c : docker_Container) (label envPrefix missing : string) :
  Labels (Config c) !! label = None →
  extractMetadata c label envPrefix missing
  = if decide (extractEnv c envPrefix = "") then missing else extractEnv c envPrefix.
Proof.
  unfold extractMetadata. intros ->. simpl.
  case_bool_decide; case_decide; done.
Qed.

Lemma extractMetadata_env_empty (c : docker_Container) (label envPrefix : string) :
  Labels (Config c) !! label = None →
  extractMetadata c label envPrefix "" = extractEnv c envPrefix.
Proof. intros H. rewrite extractMetadata_env by done. by case_decide. Qed.

(** The name the location keys give: the location label when the
    container has it, the location environment entry otherwise. *)
Lemma location_name (c : docker_Container) (locLabel locEnvPrefix : string) :
  extractMetadata c locLabel locEnvPrefix ""
  = default (extractEnv c locEnvPrefix) (Labels (Config c) !! locLabel).
Proof.
  destruct (Labels (Config c) !! locLabel) as [l|] eqn:Hl; simpl.
  - by apply extractMetadata_label.
  - by apply extractMetadata_env_empty.
Qed.

Lemma TrimPrefix_empty (p : string) : p ≠ "" → strings.TrimPrefix "" p = "".
Proof. by destruct p. Qed.

End resolution.

Section resolution_claims.

(** C10: [extractEnv] returns what follows the prefix in the first entry
    of the environment, in sequence order, that starts with the prefix,
    whatever entries come after it, and the empty string when no entry
    starts with the prefix.  A first matching entry with nothing after
    the prefix therefore gives the empty string as well, and
    [extractMetadata] (the label being absent) then returns its
    [missing] argument, as it does when no entry matches. *)
Theorem extractEnv_first_entry (c : docker_Container) (envPrefix : string) :
  (∀ before after rest,
      Env (Config c) = before ++ (envPrefix +:+ rest) :: after →
      no_entry_with envPrefix before →
      extractEnv c envPrefix = rest)
  ∧ (no_entry_with envPrefix (Env (Config c)) → extractEnv c envPrefix = "")
  ∧ (∀ before after label missing,
      Env (Config c) = before ++ envPrefix :: after →
      no_entry_with envPrefix before →
      Labels (Config c) !! label = None →
      extractEnv c envPrefix = ""
      ∧ extractMetadata c label envPrefix missing = missing)
  ∧ (∀ label missing,
      no_entry_with envPrefix (Env (Config c)) →
      Labels (Config c) !! label = None →
      extractMetadata c label envPrefix missing = missing).
Proof.
  unfold extractEnv. split_and!.
  - intros before after rest -> Hb. by apply extractEnv_range_first.
  - apply extractEnv_range_none.
  - intros before after label missing Henv Hb Hl.
    assert (extractEnv c envPrefix = "") as He.
    { unfold extractEnv. rewrite Henv.
      rewrite <- (app_empty_str envPrefix) at 1.
      by apply extractEnv_range_first. }
    split; [done|]. rewrite extractMetadata_env by done. by rewrite He.
  - intros label missing Hn Hl. rewrite extractMetadata_env by done.
    unfold extractEnv. by rewrite extractEnv_range_none.
Qed.

(** C6: a location label whose value is the (non-empty) name of an
    existing label gives that label's value as the resolved identity,
    whatever the direct label holds; in
    one lookup step a label that is present wins over the environment;
    and with the location label, the location environment entry, the
    direct label and the direct environment entry all missing, the app
    identity is empty and the task identity is ["default"]. *)
Theorem resolution_precedence (c : docker_Container) :
  (∀ name v,
      Labels (Config c) !! appLocationLabel = Some name → name ≠ "" →
      Labels (Config c) !! name = Some v →
      resolveApp os_Getenv c = v
      ∧ (extractEnv c appEnvLocationTrimPrefix = "" → extractApp os_Getenv c = v))
  ∧ (∀ name v,
      Labels (Config c) !! taskLocationLabel = Some name → name ≠ "" →
      Labels (Config c) !! name = Some v →
      resolveTask os_Getenv c = v
      ∧ (extractEnv c taskEnvLocationTrimPrefix = "" → extractTask os_Getenv c = v))
  ∧ (∀ label envPrefix missing v,
      Labels (Config c) !! label = Some v →
      extractMetadata c label envPrefix missing = v)
  ∧ (Labels (Config c) !! appLocationLabel = None →
     extractEnv c appEnvLocationPrefix = "" →
     Labels (Config c) !! (appLabel os_Getenv) = None →
     extractEnv c (appEnvPrefix os_Getenv) = "" →
     resolveApp os_Getenv c = "" ∧ extractApp os_Getenv c = "")
  ∧ (Labels (Config c) !! taskLocationLabel = None →
     extractEnv c taskEnvLocationPrefix = "" →
     Labels (Config c) !! (taskLabel os_Getenv) = None →
     extractEnv c (taskEnvPrefix os_Getenv) = "" →
     resolveTask os_Getenv c = "default"
     ∧ (extractEnv c taskEnvLocationTrimPrefix = "" → extractTask os_Getenv c = "default")).
Proof.
  split_and!.
  - intros name v Hloc Hname Hv.
    assert (resolveApp os_Getenv c = v) as Hr.
    { unfold resolveApp. rewrite (extractMetadata_label _ _ _ _ _ Hloc).
      rewrite bool_decide_true by done. by apply extractMetadata_label. }
    split; [done|]. intros Ht. unfold extractApp. rewrite Ht, Hr. done.
  - intros name v Hloc Hname Hv.
    assert (resolveTask os_Getenv c = v) as Hr.
    { unfold resolveTask. rewrite (extractMetadata_label _ _ _ _ _ Hloc).
      rewrite bool_decide_true by done. by apply extractMetadata_label. }
    split; [done|]. intros Ht. unfold extractTask. rewrite Ht, Hr. done.
  - intros label envPrefix missing v. apply extractMetadata_label.
  - intros Hll Hle Hdl Hde.
    assert (resolveApp os_Getenv c = "") as Hr.
    { unfold resolveApp. rewrite !extractMetadata_env_empty by done.
      rewrite Hle. simpl. rewrite extractMetadata_env_empty by done. done. }
    split; [done|]. unfold extractApp. rewrite Hr.
    case_bool_decide; [by apply TrimPrefix_empty|done].
  - intros Hll Hle Hdl Hde.
    assert (resolveTask os_Getenv c = "default") as Hr.
    { unfold resolveTask. rewrite extractMetadata_env_empty by done.
      rewrite Hle. simpl. rewrite extractMetadata_env by done.
      by rewrite Hde. }
    split; [done|]. intros Ht. unfold extractTask. by rewrite Ht, Hr.
Qed.

Lemma trim_step (resolved prefix : string) :
  prefix ≠ "" →
  (∀ rest, resolved = prefix +:+ rest →
     (if bool_decide (prefix ≠ "") then strings.TrimPrefix resolved prefix
      else resolved) = rest)
  ∧ (strings.HasPrefix resolved prefix = false →
     (if bool_decide (prefix ≠ "") then strings.TrimPrefix resolved prefix
      else resolved) = resolved).
Proof.
  intros Hp. rewrite bool_decide_true by done. split.
  - intros rest ->. apply TrimPrefix_app.
  - apply TrimPrefix_no_prefix.
Qed.

(** C7: when the trim-prefix environment entry of an identity has a
    non-empty value and the resolved identity starts with that value, the
    final identity is the resolved identity without this one leading
    occurrence; when the resolved identity does not start with it, the
    final identity is the resolved identity.  The app and the task read
    their trim prefix from two different environment keys. *)
Theorem trim_prefix_applied (c : docker_Container) (prefix : string) :
  prefix ≠ "" →
  (extractEnv c appEnvLocationTrimPrefix = prefix →
     (∀ rest, resolveApp os_Getenv c = prefix +:+ rest → extractApp os_Getenv c = rest)
     ∧ (strings.HasPrefix (resolveApp os_Getenv c) prefix = false →
        extractApp os_Getenv c = resolveApp os_Getenv c))
  ∧ (extractEnv c taskEnvLocationTrimPrefix = prefix →
     (∀ rest, resolveTask os_Getenv c = prefix +:+ rest → extractTask os_Getenv c = rest)
     ∧ (strings.HasPrefix (resolveTask os_Getenv c) prefix = false →
        extractTask os_Getenv c = resolveTask os_Getenv c))
  ∧ appEnvLocationTrimPrefix ≠ taskEnvLocationTrimPrefix.
Proof.
  intros Hp. split_and!.
  - intros He. unfold extractApp. rewrite He. by apply trim_step.
  - intros He. unfold extractTask. rewrite He. by apply trim_step.
  - done.
Qed.

(** C1, as the code has it: the location name is the value of the
    location label when the container has that label, and what the
    location environment entry holds otherwise.  With a non-empty
    location name the identity is the value of the label of that name
    when the container has it, otherwise what the environment entry
    [name=] holds, and otherwise the missing value (empty for the app,
    ["default"] for the task): the direct label and the direct
    environment prefix play no part.  With an empty location name the
    identity is the value of the direct label when the container has it,
    otherwise what the direct environment entry holds, and otherwise the
    missing value. *)
Theorem resolution_by_location (c : docker_Container) :
  let labels := Labels (Config c) in
  let or_default (v : string) := if decide (v = "") then defaultTask else v in
  let app_at := default (extractEnv c appEnvLocationPrefix) (labels !! appLocationLabel) in
  let task_at := default (extractEnv c taskEnvLocationPrefix) (labels !! taskLocationLabel) in
  (app_at ≠ "" →
     resolveApp os_Getenv c = default (extractEnv c (app_at +:+ "=")) (labels !! app_at))
  ∧ (app_at = "" →
     resolveApp os_Getenv c = default (extractEnv c (appEnvPrefix os_Getenv)) (labels !! (appLabel os_Getenv)))
  ∧ (task_at ≠ "" →
     resolveTask os_Getenv c
     = default (or_default (extractEnv c (task_at +:+ "="))) (labels !! task_at))
  ∧ (task_at = "" →
     resolveTask os_Getenv c
     = default (or_default (extractEnv c (taskEnvPrefix os_Getenv))) (labels !! (taskLabel os_Getenv))).
Proof.
  intros labels or_default app_at task_at.
  assert (∀ label envPrefix,
    extractMetadata c label envPrefix defaultTask
    = default (or_default (extractEnv c envPrefix)) (labels !! label)) as Htask.
  { intros label envPrefix. subst labels.
    destruct (Labels (Config c) !! label) as [v|] eqn:Hl; simpl.
    - by apply extractMetadata_label.
    - by apply extractMetadata_env. }
  unfold resolveApp, resolveTask. rewrite !location_name.
  fold labels app_at task_at. split_and!; intros H.
  - by rewrite bool_decide_true.
  - by rewrite bool_decide_false by (by intros []).
  - rewrite bool_decide_true by done. apply Htask.
  - rewrite bool_decide_false by (by intros []). apply Htask.
Qed.

End resolution_claims.

(** * Expansion into tags *)

Section tag_claims.

(** Keys that start with different literal text differ. *)
Local Ltac key_ne :=
  let H := fresh in
  intros H; cbv beta iota fix delta [String.append] in H; discriminate H.

Lemma group_key_inj (lo hi i i' : nat) :
  lo ≤ i < hi → lo ≤ i' < hi →
  "group" +:+ strconv.Itoa (Z.of_nat i) = "group" +:+ strconv.Itoa (Z.of_nat i') →
  i = i'.
Proof. intros _ _ H. by apply Nat2Z.inj, (numbered_key_inj "group"). Qed.

Lemma task_key_inj (lo hi i i' : nat) :
  lo ≤ i < hi → lo ≤ i' < hi →
  "task" +:+ strconv.Itoa (Z.of_nat i + 1) = "task" +:+ strconv.Itoa (Z.of_nat i' + 1) →
  i = i'.
Proof. intros _ _ H. apply (numbered_key_inj "task") in H. lia. Qed.

Lemma last_segment (segs : list string) :
  0 < length segs → Some (segs !!! (length segs - 1)) = last segs.
Proof.
  intros H. rewrite last_lookup.
  replace (pred (length segs)) with (length segs - 1) by lia.
  symmetry. apply list_lookup_lookup_total_lt. lia.
Qed.

(** C3: [extractTagsFromApp] cuts the app identity at every ['/'], stores
    the last segment as [app] and the identity itself as [app_id]; with
    at most one leading segment [group] is ["/"], and with more [group]
    is the leading segments joined by ['/'] and [group{i}], for [i] from
    1 to one less than their number, is the first [i+1] of them joined by
    ['/'].  For ["a/b/c"] and ["a/b/c/d"] this gives the tags listed. *)
Theorem extractTagsFromApp_tags (tags0 : gmap string string) (A : string) :
  let segs := strings.Split A "/" in
  let leading := take (length segs - 1) segs in
  let T := extractTagsFromApp tags0 A in
  strings.Join segs "/" = A
  ∧ Forall (λ w, strings.none_sep (λ a, bool_decide (a = "/"%char)) w = true) segs
  ∧ T !! "app" = last segs
  ∧ T !! "app_id" = Some A
  ∧ (length leading ≤ 1 → T !! "group" = Some "/")
  ∧ (1 < length leading →
     T !! "group" = Some (strings.Join leading "/")
     ∧ ∀ i, 1 ≤ i ≤ length leading - 1 →
         T !! ("group" +:+ strconv.Itoa (Z.of_nat i))
         = Some (strings.Join (take (i + 1) leading) "/"))
  ∧ extractTagsFromApp ∅ "x" !! "group" = Some "/"
  ∧ extractTagsFromApp ∅ "a/b" !! "group" = Some "/"
  ∧ extractTagsFromApp ∅ "a/b/c"
    = {[ "app_id" := "a/b/c"; "app" := "c"; "group" := "a/b"; "group1" := "a/b" ]}
  ∧ extractTagsFromApp ∅ "a/b/c/d"
    = {[ "app_id" := "a/b/c/d"; "app" := "d"; "group" := "a/b/c";
         "group1" := "a/b"; "group2" := "a/b/c" ]}.
Proof.
  intros segs leading T.
  assert (0 < length segs) as Hpos by apply cut_length_pos.
  assert (∀ k v, k ≠ "group" → (∀ i, "group" +:+ strconv.Itoa (Z.of_nat i) ≠ k) →
            (<["app" := segs !!! (length segs - 1)]> (<["app_id" := A]> tags0)) !! k = Some v →
            T !! k = Some v) as Hkeep.
  { intros k v Hk Hki Hv. subst T. unfold extractTagsFromApp.
    fold segs. fold leading. case_bool_decide.
    - by rewrite lookup_insert_ne.
    - rewrite insert_loop_other by (intros; apply Hki).
      by rewrite lookup_insert_ne. }
  split_and!.
  - apply Join_Split.
  - apply cut_pieces_none_sep.
  - rewrite <- last_segment by done. apply Hkeep; [done|intros; key_ne|].
    apply lookup_insert_eq.
  - apply Hkeep; [done|intros; key_ne|]. rewrite lookup_insert_ne by done.
    apply lookup_insert_eq.
  - intros Hle. subst T. unfold extractTagsFromApp. fold segs. fold leading.
    rewrite bool_decide_true by done. apply lookup_insert_eq.
  - intros Hlt. subst T. unfold extractTagsFromApp. fold segs. fold leading.
    rewrite bool_decide_false by lia. split.
    + rewrite insert_loop_other by (intros; apply numbered_key_ne_stem).
      apply lookup_insert_eq.
    + intros i Hi.
      apply (insert_loop_lookup (λ i, "group" +:+ strconv.Itoa (Z.of_nat i))
               (λ i, strings.Join (take (i + 1) leading) "/")).
      * intros ????. by apply (group_key_inj 1 (length leading)).
      * lia.
  - by vm_compute.
  - by vm_compute.
  - by vm_compute.
  - by vm_compute.
Qed.

(** C4: [extractTagsFromTask] cuts the task identity at every ['-'] and
    every ['.'], stores the identity itself as [task] and the segment at
    position [i], counted from 1, as [task{i}].  ["worker-7.canary"]
    gives [task1], [task2] and [task3]; an identity without ['-'] and
    ['.'] gives [task] and [task1] only, both the whole identity. *)
Theorem extractTagsFromTask_tags (tags0 : gmap string string) (T : string) :
  let segs := regexp.Split_dash_dot T in
  let R := extractTagsFromTask tags0 T in
  length segs = S (strings.count_sep regexp.dash_or_dot T)
  ∧ Forall (λ w, strings.none_sep regexp.dash_or_dot w = true) segs
  ∧ R !! "task" = Some T
  ∧ (∀ (i : nat) (s : string), segs !! i = Some s →
       R !! ("task" +:+ strconv.Itoa (Z.of_nat i + 1)) = Some s)
  ∧ (strings.none_sep regexp.dash_or_dot T = true →
     R = <["task1" := T]> (<["task" := T]> tags0))
  ∧ extractTagsFromTask ∅ "worker-7.canary"
    = {[ "task" := "worker-7.canary"; "task1" := "worker"; "task2" := "7";
         "task3" := "canary" ]}.
Proof.
  intros segs R. split_and!.
  - apply cut_length.
  - apply cut_pieces_none_sep.
  - subst R. unfold extractTagsFromTask. fold segs.
    rewrite insert_loop_other by (intros; apply numbered_key_ne_stem).
    apply lookup_insert_eq.
  - intros i s Hs. subst R. unfold extractTagsFromTask. fold segs.
    rewrite (insert_loop_lookup (λ i, "task" +:+ strconv.Itoa (Z.of_nat i + 1))
               (λ i, segs !!! i)).
    + f_equal. by apply list_lookup_total_correct.
    + intros ????. by apply (task_key_inj 0 (length segs)).
    + apply lookup_lt_Some in Hs. lia.
  - intros Hn. subst R segs. unfold extractTagsFromTask, regexp.Split_dash_dot.
    by rewrite cut_none_sep.
  - by vm_compute.
Qed.

(** C2, as the code has it: for a container whose direct app label holds
    ["/infra/web/api"], with no location key and no trim prefix set, the
    app identity is that value and the expansion stores exactly
    [app_id = "/infra/web/api"], [app = "api"], [group = "/infra/web"],
    [group1 = "/infra"] and [group2 = "/infra/web"]: the text before the
    leading ['/'] is an empty first segment. *)
Theorem infra_web_api_tags (c : docker_Container) :
  Labels (Config c) !! appLocationLabel = None →
  extractEnv c appEnvLocationPrefix = "" →
  extractEnv c appEnvLocationTrimPrefix = "" →
  Labels (Config c) !! (appLabel os_Getenv) = Some "/infra/web/api" →
  extractApp os_Getenv c = "/infra/web/api"
  ∧ extractTagsFromApp ∅ (extractApp os_Getenv c)
    = {[ "app_id" := "/infra/web/api"; "app" := "api"; "group" := "/infra/web";
         "group1" := "/infra"; "group2" := "/infra/web" ]}.
Proof.
  intros Hll Hle Ht Hl.
  assert (extractApp os_Getenv c = "/infra/web/api") as ->; [|by vm_compute].
  unfold extractApp, resolveApp. rewrite Ht.
  rewrite (extractMetadata_env_empty _ _ _ Hll), Hle. simpl.
  by apply extractMetadata_label.
Qed.

End tag_claims.

(** * The monitor and its forwarding loop *)

Section monitor_claims.

Implicit Types (m : Monitor docker_Stats docker_error) (received : list docker_Stats).

Lemma int_wrap_in_range (z : Z) :
  (- 2 ^ 63 ≤ z < 2 ^ 63)%Z → int_wrap z = z.
Proof.
  intros H. unfold int_wrap.
  rewrite Z.mod_small by lia. lia.
Qed.

(** With a non-zero interval the goroutine ends when the channel is
    closed. *)
Lemma handle_go_no_panic m (i : Z) received :
  interval m ≠ 0%Z → (handle_go m i received).2 = range_closed.
Proof.
  intros Hk. revert i. induction received as [|s rest IH]; intros i; simpl; [done|].
  rewrite bool_decide_false by done.
  case_bool_decide; [apply IH|].
  specialize (IH (int_wrap (i + 1))).
  by destruct (handle_go m (int_wrap (i + 1)) rest).
Qed.

(** How far the next multiple of [k] is from [i]. *)
Lemma next_multiple_here (i k : Z) :
  (0 < k)%Z → (i `mod` k = 0)%Z → ((- i) `mod` k = 0)%Z.
Proof. intros Hk Hi. apply Z.mod_opp_l_z; [lia|done]. Qed.

Lemma next_multiple_after (i k : Z) :
  (0 < k)%Z → (i `mod` k = 0)%Z → ((- (i + 1)) `mod` k = k - 1)%Z.
Proof.
  intros Hk Hi. symmetry.
  apply (Z.mod_unique_pos _ _ (- (i `div` k) - 1)); [lia|].
  pose proof (Z.div_mod i k). lia.
Qed.

Lemma next_multiple_closer (i k : Z) :
  (0 < k)%Z → (i `mod` k ≠ 0)%Z →
  ((- i) `mod` k = (- (i + 1)) `mod` k + 1)%Z.
Proof.
  intros Hk Hi.
  pose proof (Z.mod_pos_bound i k Hk) as Hb.
  pose proof (Z.div_mod i k) as Hd.
  assert ((- i) `mod` k = k - i `mod` k)%Z as ->.
  { symmetry. apply (Z.mod_unique_pos _ _ (- (i `div` k) - 1)); lia. }
  destruct (decide (i `mod` k = k - 1)%Z) as [He|Hne].
  - assert ((- (i + 1)) `mod` k = 0)%Z as ->; [|lia].
    symmetry. apply (Z.mod_unique_pos _ _ (- (i `div` k) - 1)); lia.
  - assert ((- (i + 1)) `mod` k = k - i `mod` k - 1)%Z as ->; [|lia].
    symmetry. apply (Z.mod_unique_pos _ _ (- (i `div` k) - 1)); lia.
Qed.

(** The values sent from counter value [i] on: the one at position [j]
    of what is sent is the record received at the [j]-th multiple of the
    interval that the counter reaches. *)
Lemma handle_go_lookup m (i : Z) received (j : nat) :
  (0 < interval m)%Z →
  (received ≠ [] → (0 ≤ i)%Z ∧ (i + Z.of_nat (length received) ≤ 2 ^ 63)%Z) →
  (handle_go m i received).1 !! j
  = Build_Stats (tags m)
      <$> received !! (Z.to_nat ((- i) `mod` interval m) + j * Z.to_nat (interval m)).
Proof.
  intros Hk. revert i j.
  induction received as [|s rest IH]; intros i j Hi; [done|].
  destruct Hi as [Hi0 Hlen]; [done|]. simpl in Hlen.
  assert (∀ j', (handle_go m (int_wrap (i + 1)) rest).1 !! j'
          = Build_Stats (tags m)
              <$> rest !! (Z.to_nat ((- (i + 1)) `mod` interval m)
                           + j' * Z.to_nat (interval m))) as Hskip.
  { intros j'. destruct rest as [|s' rest']; [done|].
    rewrite int_wrap_in_range by (simpl in Hlen; lia).
    apply IH. intros _. simpl in *. lia. }
  clear IH. simpl. rewrite bool_decide_false by lia.
  rewrite Z.rem_mod_nonneg by lia.
  pose proof (Z.mod_pos_bound (- (i + 1)) (interval m) Hk) as Hb.
  case_bool_decide as Hrem.
  - rewrite Hskip, (next_multiple_closer i) by done.
    by replace (Z.to_nat ((- (i + 1)) `mod` interval m + 1))
      with (S (Z.to_nat ((- (i + 1)) `mod` interval m))) by lia.
  - assert (i `mod` interval m = 0)%Z as Hz by lia.
    rewrite (next_multiple_here i) by done.
    rewrite (next_multiple_after i) in Hskip by done.
    destruct (handle_go m (int_wrap (i + 1)) rest) as [sent e].
    destruct j as [|j]; [done|]. simpl in Hskip |- *. rewrite Hskip.
    by replace (Z.to_nat (interval m) + j * Z.to_nat (interval m))
      with (S (Z.to_nat (interval m - 1) + j * Z.to_nat (interval m))) by lia.
Qed.

(** A list that holds, at every position [j], the image of what [l]
    holds at position [j * k] has the ceiling of [length l / k] as its
    length. *)
Lemma every_kth_length {A B : Type} (f : A → B) (l : list A) (out : list B) (k : Z) :
  (0 < k)%Z →
  (∀ j : nat, out !! j = f <$> l !! (j * Z.to_nat k)) →
  Z.of_nat (length out) = ((Z.of_nat (length l) + k - 1) `div` k)%Z.
Proof.
  intros Hk Hout.
  assert (Z.of_nat (length l) ≤ Z.of_nat (length out) * k)%Z as Hup.
  { pose proof (Hout (length out)) as H.
    rewrite (lookup_ge_None_2 out) in H by lia.
    symmetry in H. apply fmap_None, lookup_ge_None_1 in H. nia. }
  assert (0 < length out →
          ((Z.of_nat (length out) - 1) * k < Z.of_nat (length l))%Z) as Hlow.
  { intros Hpos. pose proof (Hout (length out - 1)) as H.
    destruct (lookup_lt_is_Some_2 out (length out - 1)) as [y Hy]; [lia|].
    rewrite Hy in H. symmetry in H.
    apply fmap_Some in H as (x & Hx & _). apply lookup_lt_Some in Hx. nia. }
  destruct (decide (length out = 0)) as [H0|Hn0].
  - rewrite H0 in *. symmetry. apply Z.div_small. lia.
  - apply (Z.div_unique_pos _ _ _
             (Z.of_nat (length l) + k - 1 - k * Z.of_nat (length out))); lia.
Qed.

(** The goroutine started with the counter at 0, on a stream short
    enough for the counter. *)
Lemma handle_go_every_kth m received :
  (0 < interval m)%Z →
  (Z.of_nat (length received) ≤ 2 ^ 63)%Z →
  let sent := (handle_go m 0 received).1 in
  (handle_go m 0 received).2 = range_closed
  ∧ Z.of_nat (length sent)
    = ((Z.of_nat (length received) + interval m - 1) `div` interval m)%Z
  ∧ (Z.of_nat (length received) ≤ Z.of_nat (length sent) * interval m
     < Z.of_nat (length received) + interval m)%Z
  ∧ ∀ j : nat,
      sent !! j = Build_Stats (tags m) <$> received !! (j * Z.to_nat (interval m)).
Proof.
  intros Hk Hlen sent.
  assert (∀ j : nat,
    sent !! j = Build_Stats (tags m) <$> received !! (j * Z.to_nat (interval m)))
    as Hsent.
  { intros j. subst sent. rewrite handle_go_lookup by (done || lia).
    by rewrite Z.mod_0_l by lia. }
  pose proof (every_kth_length _ _ _ _ Hk Hsent) as Hceil.
  split_and!; [apply handle_go_no_panic; lia|done| | |done].
  - rewrite Hceil.
    pose proof (Z.mul_div_le (Z.of_nat (length received) + interval m - 1)
                  (interval m) Hk) as H1.
    pose proof (Z.mul_succ_div_gt (Z.of_nat (length received) + interval m - 1)
                  (interval m) Hk) as H2.
    lia.
  - rewrite Hceil.
    pose proof (Z.mul_div_le (Z.of_nat (length received) + interval m - 1)
                  (interval m) Hk) as H1.
    lia.
Qed.

(** C5: with a positive interval [k] and a client that delivers a stream
    of [N] records short enough for the 64-bit counter (at most [2^63]
    records), [handle], whose goroutine starts its counter at 0, sends
    exactly the ceiling of [N / k] values, its goroutine ends when the
    channel is closed, and it returns what the client's [Stats] call
    returns; the value at position [j] of what it sends pairs the
    monitor's tags with the record received at position [j * k], so the
    records at positions [0], [k], [2k], ... are sent, in the order in
    which they were received. *)
Theorem sampler_forwards_every_kth m received (err : option docker_error) :
  client_Stats (client m) (id m) = (received, err) →
  (0 < interval m)%Z →
  (Z.of_nat (length received) ≤ 2 ^ 63)%Z →
  let sent := (handle m).1.1 in
  (handle m).1.2 = range_closed
  ∧ (handle m).2 = err
  ∧ Z.of_nat (length sent)
    = ((Z.of_nat (length received) + interval m - 1) `div` interval m)%Z
  ∧ (Z.of_nat (length received) ≤ Z.of_nat (length sent) * interval m
     < Z.of_nat (length received) + interval m)%Z
  ∧ ∀ j : nat,
      sent !! j = Build_Stats (tags m) <$> received !! (j * Z.to_nat (interval m)).
Proof.
  intros Hc Hk Hlen sent. subst sent.
  assert (handle m = (handle_go m 0 received, err)) as ->.
  { unfold handle. by rewrite Hc. }
  simpl.
  pose proof (handle_go_every_kth m received Hk Hlen) as H. cbv zeta in H.
  destruct H as (Hend & Hceil & Hbounds & Hsent).
  split; [exact Hend|]. split; [reflexivity|]. split; [exact Hceil|].
  split; [exact Hbounds|exact Hsent].
Qed.

(** C8: [NewMonitor] hands on the error of a failed inspection and
    creates no monitor; after a successful inspection with an empty app
    identity it returns [ErrNoNeedToMonitor], which is no error of the
    inspection, and no monitor; otherwise it returns a monitor and no
    error. *)
Theorem NewMonitor_outcomes (c : MonitorDockerClient docker_Stats docker_error) (cid : string) (k : Z) :
  (∀ err, InspectContainer c cid = inr err →
     NewMonitor os_Getenv c cid k = (None, Some (client_error err)))
  ∧ (∀ container, InspectContainer c cid = inl container →
     extractApp os_Getenv container = "" →
     NewMonitor os_Getenv c cid k = (None, Some ErrNoNeedToMonitor))
  ∧ (∀ container, InspectContainer c cid = inl container →
     extractApp os_Getenv container ≠ "" →
     ∃ m, NewMonitor os_Getenv c cid k = (Some m, None)
          ∧ app m = extractApp os_Getenv container
          ∧ task m = extractTask os_Getenv container
          ∧ tags m = extractTagsFromTask
                       (extractTagsFromApp ∅ (extractApp os_Getenv container))
                       (extractTask os_Getenv container))
  ∧ (∀ err : docker_error, ErrNoNeedToMonitor ≠ client_error err).
Proof.
  unfold NewMonitor. split_and!.
  - by intros err ->.
  - intros container -> Happ. by rewrite bool_decide_true.
  - intros container -> Happ. rewrite bool_decide_false by done. by eexists.
  - done.
Qed.

(** C9: [NewMonitor] stores the interval it is given as it is: whenever
    the inspection succeeds and the app identity is not empty it returns
    a monitor with that interval, be it zero or negative.  In the
    forwarding loop a monitor with interval 0 panics with a division by
    zero at the first record it receives, before sending anything; with
    any other interval the loop does not panic. *)
Theorem interval_not_validated (c : MonitorDockerClient docker_Stats docker_error) (cid : string) (k : Z) :
  (∀ container, InspectContainer c cid = inl container →
     extractApp os_Getenv container ≠ "" →
     ∃ m, NewMonitor os_Getenv c cid k = (Some m, None) ∧ interval m = k)
  ∧ (∀ m s rest, interval m = 0%Z →
     handle_go m 0 (s :: rest) = ([], panic_divide_by_zero))
  ∧ (∀ m i received, interval m ≠ 0%Z →
     (handle_go m i received).2 = range_closed).
Proof.
  split_and!.
  - intros container Hc Happ. unfold NewMonitor.
    rewrite Hc, bool_decide_false by done. by eexists.
  - intros m s rest Hz. simpl. by rewrite bool_decide_true.
  - intros m i received. apply handle_go_no_panic.
Qed.

End monitor_claims.

(** * Further properties of the expansion into tags *)

Section tag_structure.

Local Ltac lit_ne :=
  let H := fresh in
  intros H; cbv beta iota fix delta [String.append] in H; discriminate H.

Lemma app_assoc_str (a b c : string) : (a +:+ b) +:+ c = a +:+ b +:+ c.
Proof.
  induction a as [|x a IH]; [done|].
  change (String x ((a +:+ b) +:+ c) = String x (a +:+ b +:+ c)). by rewrite IH.
Qed.

Lemma Join_snoc (l : list string) (x sep : string) :
  l ≠ [] → strings.Join (l ++ [x]) sep = strings.Join l sep +:+ sep +:+ x.
Proof.
  induction l as [|e l IH]; [done|]. intros _.
  destruct l as [|e' l]; [done|].
  change (e +:+ sep +:+ strings.Join ((e' :: l) ++ [x]) sep
          = (e +:+ sep +:+ strings.Join (e' :: l) sep) +:+ sep +:+ x).
  rewrite IH by done. by rewrite !app_assoc_str.
Qed.

(** A list with a last element is its leading part followed by it. *)
Lemma leading_and_last (segs : list string) (a : string) :
  last segs = Some a → segs = take (length segs - 1) segs ++ [a].
Proof.
  intros [l' ->]%last_Some. rewrite length_app. simpl.
  replace (length l' + 1 - 1) with (length l') by lia.
  by rewrite take_app_length.
Qed.

(** A loop of stores into a map laid over another one. *)
Lemma insert_loop_union (key val : nat → string) (lo hi : nat)
    (m1 m2 : gmap string string) :
  for_range lo hi (λ i m, <[key i := val i]> m) (m1 ∪ m2)
  = for_range lo hi (λ i m, <[key i := val i]> m) m1 ∪ m2.
Proof.
  induction hi as [|hi IH]; [by rewrite !for_range_empty by lia|].
  destruct (decide (lo ≤ hi)).
  - rewrite !for_range_last by done. by rewrite IH, insert_union_l.
  - by rewrite !for_range_empty by lia.
Qed.

(** What a loop of stores holds under a key comes from one of its rounds
    or from the map it started with. *)
Lemma insert_loop_origin (key val : nat → string) (lo hi : nat)
    (m : gmap string string) (k v : string) :
  for_range lo hi (λ i m, <[key i := val i]> m) m !! k = Some v →
  (∃ i, lo ≤ i < hi ∧ k = key i) ∨ m !! k = Some v.
Proof.
  induction hi as [|hi IH]; [rewrite for_range_empty by lia; auto|].
  destruct (decide (lo ≤ hi)); [|rewrite for_range_empty by lia; auto].
  rewrite for_range_last by done.
  destruct (decide (key hi = k)) as [<-|Hne].
  - intros _. left. exists hi. split; [lia|done].
  - rewrite lookup_insert_ne by done. intros [(i & ? & ?)|?]%IH; [left|by right].
    exists i. split; [lia|done].
Qed.

(** With fresh, pairwise different keys the loop adds one entry a round. *)
Lemma insert_loop_size (key val : nat → string) (lo hi : nat)
    (m : gmap string string) :
  (∀ i i', lo ≤ i < hi → lo ≤ i' < hi → key i = key i' → i = i') →
  (∀ i, lo ≤ i < hi → m !! key i = None) →
  size (for_range lo hi (λ i m, <[key i := val i]> m) m) = size m + (hi - lo).
Proof.
  induction hi as [|hi IH]; intros Hinj Hfresh.
  { rewrite for_range_empty by lia. lia. }
  destruct (decide (lo ≤ hi)); [|rewrite for_range_empty by lia; lia].
  rewrite for_range_last by done. rewrite map_size_insert_None.
  - rewrite IH; [lia| |].
    + intros i i' ??. apply Hinj; lia.
    + intros i ?. apply Hfresh. lia.
  - rewrite insert_loop_other; [apply Hfresh; lia|].
    intros i Hi Heq. apply Hinj in Heq; lia.
Qed.

Lemma extractTagsFromApp_union (m1 m2 : gmap string string) (A : string) :
  extractTagsFromApp (m1 ∪ m2) A = extractTagsFromApp m1 A ∪ m2.
Proof.
  unfold extractTagsFromApp. case_bool_decide.
  - by rewrite !insert_union_l.
  - by rewrite !insert_union_l, insert_loop_union.
Qed.

Lemma extractTagsFromTask_union (m1 m2 : gmap string string) (T : string) :
  extractTagsFromTask (m1 ∪ m2) T = extractTagsFromTask m1 T ∪ m2.
Proof.
  unfold extractTagsFromTask. by rewrite insert_union_l, insert_loop_union.
Qed.

Lemma app_tags_over (tags0 : gmap string string) (A : string) :
  extractTagsFromApp tags0 A = extractTagsFromApp ∅ A ∪ tags0.
Proof.
  rewrite <- extractTagsFromApp_union. by rewrite (left_id_L ∅ (∪)).
Qed.

Lemma task_tags_over (tags0 : gmap string string) (T : string) :
  extractTagsFromTask tags0 T = extractTagsFromTask ∅ T ∪ tags0.
Proof.
  rewrite <- extractTagsFromTask_union. by rewrite (left_id_L ∅ (∪)).
Qed.

(** X1: [extractTagsFromApp] and [extractTagsFromTask] only lay their
    tags over the map they are given: the result is the tags of the
    identity on an empty map, which replace what the given map holds
    under their keys, with the entries of the given map kept under every
    other key. *)
Theorem tags_laid_over_given_map (tags0 : gmap string string) (A T : string) :
  extractTagsFromApp tags0 A = extractTagsFromApp ∅ A ∪ tags0
  ∧ extractTagsFromTask tags0 T = extractTagsFromTask ∅ T ∪ tags0.
Proof. split; [apply app_tags_over|apply task_tags_over]. Qed.

Section app_tags.

Variables (tags0 : gmap string string) (A : string).

Let segs := strings.Split A "/".
Let leading := take (length segs - 1) segs.

Lemma app_tag_numbered (i : nat) :
  1 < length leading → 1 ≤ i < length leading →
  extractTagsFromApp tags0 A !! ("group" +:+ strconv.Itoa (Z.of_nat i))
  = Some (strings.Join (take (i + 1) leading) "/").
Proof.
  intros Hlt Hi. unfold extractTagsFromApp. fold segs. fold leading.
  rewrite bool_decide_false by lia.
  apply (insert_loop_lookup (λ i, "group" +:+ strconv.Itoa (Z.of_nat i))
           (λ i, strings.Join (take (i + 1) leading) "/")); [|done].
  intros ????. by apply (group_key_inj 1 (length leading)).
Qed.

Lemma app_tag_group :
  extractTagsFromApp tags0 A !! "group"
  = Some (if bool_decide (length leading ≤ 1) then "/"
          else strings.Join leading "/").
Proof.
  unfold extractTagsFromApp. fold segs. fold leading. case_bool_decide.
  - apply lookup_insert_eq.
  - rewrite insert_loop_other by (intros; apply numbered_key_ne_stem).
    apply lookup_insert_eq.
Qed.

Lemma app_tag_app : extractTagsFromApp tags0 A !! "app" = last segs.
Proof.
  rewrite <- last_segment by apply cut_length_pos.
  unfold extractTagsFromApp. fold segs. fold leading. case_bool_decide.
  - rewrite lookup_insert_ne by done. apply lookup_insert_eq.
  - rewrite insert_loop_other by (intros; lit_ne).
    rewrite lookup_insert_ne by done. apply lookup_insert_eq.
Qed.

Lemma app_tag_app_id : extractTagsFromApp tags0 A !! "app_id" = Some A.
Proof.
  unfold extractTagsFromApp. fold segs. fold leading. case_bool_decide.
  - rewrite !lookup_insert_ne by done. apply lookup_insert_eq.
  - rewrite insert_loop_other by (intros; lit_ne).
    rewrite !lookup_insert_ne by done. apply lookup_insert_eq.
Qed.

(** The keys [extractTagsFromApp] writes. *)
Lemma app_tag_keys (k v : string) :
  extractTagsFromApp ∅ A !! k = Some v →
  k = "app_id" ∨ k = "app" ∨ k = "group"
  ∨ ∃ i : nat, 1 ≤ i < length leading ∧ k = "group" +:+ strconv.Itoa (Z.of_nat i).
Proof.
  unfold extractTagsFromApp. fold segs. fold leading.
  assert (∀ m : gmap string string,
            m !! k = Some v →
            (m !! k = Some v → k = "group" ∨ ∃ v', (<["app" := segs !!! (length segs - 1)]>
                (<["app_id" := A]> (∅ : gmap string string))) !! k = Some v') →
            k = "app_id" ∨ k = "app" ∨ k = "group" ∨
            ∃ i : nat, 1 ≤ i < length leading
                       ∧ k = "group" +:+ strconv.Itoa (Z.of_nat i)) as Hbase.
  { intros m Hm Hk. destruct (Hk Hm) as [->|[v' Hv']]; [auto|].
    destruct (decide (k = "app")) as [->|?]; [auto|].
    rewrite lookup_insert_ne in Hv' by done.
    destruct (decide (k = "app_id")) as [->|?]; [auto|].
    by rewrite lookup_insert_ne in Hv' by done. }
  case_bool_decide.
  - intros Hk. apply (Hbase _ Hk). intros _.
    destruct (decide (k = "group")) as [->|?]; [auto|].
    rewrite lookup_insert_ne in Hk by done. eauto.
  - intros [(i & Hi & ->)|Hk]%insert_loop_origin; [by eauto 6|].
    apply (Hbase _ Hk). intros _.
    destruct (decide (k = "group")) as [->|?]; [auto|].
    rewrite lookup_insert_ne in Hk by done. eauto.
Qed.

End app_tags.


(** X2: on an empty map [extractTagsFromApp] leaves exactly [app_id],
    [app] and [group], and with [n > 1] leading segments also the [n - 1]
    numbered group tags: three entries, or [n + 2]. *)
Theorem extractTagsFromApp_size (A : string) :
  let segs := strings.Split A "/" in
  let leading := take (length segs - 1) segs in
  size (extractTagsFromApp ∅ A)
  = if bool_decide (length leading ≤ 1) then 3 else length leading + 2.
Proof.
  intros segs leading. unfold extractTagsFromApp. fold segs. fold leading.
  assert (∀ g : string,
    size (<["group" := g]> (<["app" := segs !!! (length segs - 1)]>
            (<["app_id" := A]> (∅ : gmap string string)))) = 3) as Hthree.
  { intros g. rewrite !map_size_insert_None, map_size_empty; [done|..];
      by rewrite ?lookup_insert_ne, ?lookup_empty. }
  case_bool_decide; [apply Hthree|].
  rewrite insert_loop_size.
  - rewrite Hthree. lia.
  - intros ????. by apply (group_key_inj 1 (length leading)).
  - intros i Hi.
    rewrite lookup_insert_ne by apply not_eq_sym, numbered_key_ne_stem.
    rewrite !lookup_insert_ne by lit_ne. apply lookup_empty.
Qed.

(** X3: the tags give the app identity back.  With more than one leading
    segment it is [group], a ['/'] and [app]; with the one empty leading
    segment of an identity such as ["/api"] it is [group] followed by
    [app]; without any ['/'] it is [app]. *)
Theorem app_id_from_group_and_app (tags0 : gmap string string) (A g a : string) :
  let segs := strings.Split A "/" in
  let leading := take (length segs - 1) segs in
  let T := extractTagsFromApp tags0 A in
  T !! "group" = Some g → T !! "app" = Some a →
  (1 < length leading → g +:+ "/" +:+ a = A)
  ∧ (leading = [""] → g +:+ a = A)
  ∧ (leading = [] → a = A).
Proof.
  intros segs leading T Hg Ha. subst T.
  rewrite app_tag_group in Hg. rewrite app_tag_app in Ha.
  fold segs in Hg, Ha. fold leading in Hg.
  pose proof (Join_Split A "/") as HA. fold segs in HA.
  pose proof (leading_and_last _ _ Ha) as Hsegs. fold leading in Hsegs.
  rewrite Hsegs in HA. split_and!.
  - intros Hlt. rewrite bool_decide_false in Hg by lia. injection Hg as <-.
    rewrite Join_snoc in HA; [done|]. intros E. rewrite E in Hlt. simpl in Hlt. lia.
  - intros E. rewrite E in Hg, HA. simpl in Hg. by injection Hg as <-.
  - intros E. by rewrite E in HA.
Qed.

(** X4: the numbered group tags nest: [group{i+1}] is [group{i}], a ['/']
    and the next leading segment, and the highest one, [group{n-1}] for
    [n > 1] leading segments, is [group] itself. *)
Theorem group_tags_nest (tags0 : gmap string string) (A : string) :
  let segs := strings.Split A "/" in
  let leading := take (length segs - 1) segs in
  let T := extractTagsFromApp tags0 A in
  (∀ (i : nat) (x : string), 1 ≤ i → leading !! (i + 1) = Some x →
     ∃ gi, T !! ("group" +:+ strconv.Itoa (Z.of_nat i)) = Some gi
           ∧ T !! ("group" +:+ strconv.Itoa (Z.of_nat (i + 1)))
             = Some (gi +:+ "/" +:+ x))
  ∧ (1 < length leading →
     T !! ("group" +:+ strconv.Itoa (Z.of_nat (length leading - 1)))
     = T !! "group").
Proof.
  intros segs leading T. subst T. split.
  - intros i x Hi Hx. pose proof (lookup_lt_Some _ _ _ Hx) as Hlen.
    fold segs leading in Hlen.
    eexists. split; [apply app_tag_numbered; fold segs leading; lia|].
    rewrite app_tag_numbered by (fold segs leading; lia).
    fold segs leading. f_equal.
    replace (i + 1 + 1) with (S (i + 1)) by lia.
    rewrite (take_S_r _ _ _ Hx). apply Join_snoc.
    intros E. apply (f_equal length) in E. rewrite length_take in E.
    simpl in E. lia.
  - intros Hlt. rewrite app_tag_numbered by (fold segs leading; lia).
    rewrite app_tag_group. fold segs leading.
    rewrite bool_decide_false by lia. do 2 f_equal. apply take_ge. lia.
Qed.


(** The keys [extractTagsFromTask] writes. *)
Lemma task_tag_keys (T k v : string) :
  extractTagsFromTask ∅ T !! k = Some v →
  k = "task"
  ∨ ∃ i : nat, i < length (regexp.Split_dash_dot T)
               ∧ k = "task" +:+ strconv.Itoa (Z.of_nat i + 1).
Proof.
  unfold extractTagsFromTask.
  intros [(i & Hi & ->)|Hk]%insert_loop_origin.
  - right. exists i. split; [lia|done].
  - destruct (decide (k = "task")) as [->|?]; [auto|].
    by rewrite lookup_insert_ne in Hk by done.
Qed.

(** Keys outside the task tags are left as they are. *)
Lemma task_tags_frame (tags0 : gmap string string) (T k : string) :
  k ≠ "task" → (∀ i : Z, k ≠ "task" +:+ strconv.Itoa i) →
  extractTagsFromTask tags0 T !! k = tags0 !! k.
Proof.
  intros Hk Hki. unfold extractTagsFromTask.
  rewrite insert_loop_other by (intros i _; apply not_eq_sym, Hki).
  by rewrite lookup_insert_ne.
Qed.

(** X5: on an empty map [extractTagsFromTask] leaves exactly [task] and
    one numbered tag for every segment: two entries more than the
    identity has ['-'] and ['.'] bytes. *)
Theorem extractTagsFromTask_size (T : string) :
  size (extractTagsFromTask ∅ T) = strings.count_sep regexp.dash_or_dot T + 2.
Proof.
  unfold extractTagsFromTask. rewrite insert_loop_size.
  - rewrite map_size_insert_None, map_size_empty by apply lookup_empty.
    unfold regexp.Split_dash_dot. rewrite cut_length. lia.
  - intros ????. by apply (task_key_inj 0 (length (regexp.Split_dash_dot T))).
  - intros i _.
    rewrite lookup_insert_ne by apply not_eq_sym, numbered_key_ne_stem.
    apply lookup_empty.
Qed.

Lemma app_task_tags_disjoint (A T : string) :
  extractTagsFromTask ∅ T ##ₘ extractTagsFromApp ∅ A.
Proof.
  apply map_disjoint_spec. intros k x y Ht Ha.
  apply task_tag_keys in Ht. apply app_tag_keys in Ha.
  destruct Ht as [->|(i & _ & ->)];
    destruct Ha as [Ha|[Ha|[Ha|(j & _ & Ha)]]]; revert Ha; lit_ne.
Qed.

(** X6: the app tags and the task tags do not touch each other's keys,
    so the two expansions give the same map in either order. *)
Theorem app_and_task_tags_commute (tags0 : gmap string string) (A T : string) :
  extractTagsFromTask (extractTagsFromApp tags0 A) T
  = extractTagsFromApp (extractTagsFromTask tags0 T) A.
Proof.
  rewrite (app_tags_over (extractTagsFromTask tags0 T)).
  rewrite (task_tags_over (extractTagsFromApp tags0 A)).
  rewrite (app_tags_over tags0), (task_tags_over tags0).
  rewrite !(assoc_L (∪)). f_equal. apply map_union_comm, app_task_tags_disjoint.
Qed.


End tag_structure.


(** * Further properties of the monitor *)

Section monitor_structure.

Implicit Types (m : Monitor docker_Stats docker_error) (received : list docker_Stats).

Local Ltac lit_ne :=
  let H := fresh in
  intros H; cbv beta iota fix delta [String.append] in H; discriminate H.

Lemma task_tag_task (tags0 : gmap string string) (T : string) :
  extractTagsFromTask tags0 T !! "task" = Some T.
Proof.
  unfold extractTagsFromTask.
  rewrite insert_loop_other by (intros; apply numbered_key_ne_stem).
  apply lookup_insert_eq.
Qed.

Lemma task_tag_first (tags0 : gmap string string) (T : string) :
  extractTagsFromTask tags0 T !! "task1" = head (regexp.Split_dash_dot T).
Proof.
  unfold extractTagsFromTask.
  pose proof (cut_length_pos regexp.dash_or_dot T) as Hpos.
  fold (regexp.Split_dash_dot T) in Hpos.
  change "task1" with ("task" +:+ strconv.Itoa (Z.of_nat 0 + 1)).
  rewrite (insert_loop_lookup (λ i, "task" +:+ strconv.Itoa (Z.of_nat i + 1))
             (λ i, regexp.Split_dash_dot T !!! i)).
  - destruct (regexp.Split_dash_dot T); [simpl in Hpos; lia|done].
  - intros ????. by apply (task_key_inj 0 (length (regexp.Split_dash_dot T))).
  - lia.
Qed.

(** X7: a monitor that [NewMonitor] returns comes without an error and
    from a successful inspection: it keeps the client and the interval it
    was given, takes its id from the inspected container rather than from
    the id it was asked for, has a non-empty app identity, and its tags
    always hold [app_id] (the app identity), [app], [group], [task] (the
    task identity) and [task1]. *)
Theorem NewMonitor_monitor_invariants
    (c : MonitorDockerClient docker_Stats docker_error) (cid : string) (k : Z)
    m (e : option (error docker_error)) :
  NewMonitor os_Getenv c cid k = (Some m, e) →
  e = None
  ∧ ∃ container,
      InspectContainer c cid = inl container
      ∧ client m = c ∧ id m = ID container ∧ interval m = k
      ∧ app m = extractApp os_Getenv container ∧ app m ≠ ""
      ∧ task m = extractTask os_Getenv container
      ∧ tags m !! "app_id" = Some (app m)
      ∧ tags m !! "task" = Some (task m)
      ∧ is_Some (tags m !! "app")
      ∧ is_Some (tags m !! "group")
      ∧ is_Some (tags m !! "task1").
Proof.
  unfold NewMonitor. destruct (InspectContainer c cid) as [container|err]; [|done].
  case_bool_decide as Happ; [done|]. intros [= <- <-]. split; [done|].
  exists container. simpl. split_and!; try done.
  - rewrite task_tags_frame by (done || intros; lit_ne). apply app_tag_app_id.
  - apply task_tag_task.
  - rewrite task_tags_frame by (done || intros; lit_ne). rewrite app_tag_app.
    destruct (cut_cons (λ a, bool_decide (a = "/"%char))
                (extractApp os_Getenv container)) as (w & ws & Hc).
    unfold strings.Split. rewrite Hc. rewrite last_lookup. simpl.
    apply lookup_lt_is_Some_2. simpl. lia.
  - rewrite task_tags_frame by (done || intros; lit_ne). rewrite app_tag_group.
    by eexists.
  - rewrite task_tag_first.
    destruct (cut_cons regexp.dash_or_dot (extractTask os_Getenv container))
      as (w & ws & Hc).
    unfold regexp.Split_dash_dot. rewrite Hc. by eexists.
Qed.

(** X8: whatever the interval and the counter, what the goroutine sends
    is a subsequence of the records it receives, each paired with the
    monitor's tags: it never reorders, repeats or alters a record. *)
Theorem handle_go_sends_subsequence m (i : Z) received :
  (handle_go m i received).1 `sublist_of` (Build_Stats (tags m) <$> received).
Proof.
  revert i. induction received as [|s rest IH]; intros i; simpl; [constructor|].
  case_bool_decide; [apply sublist_nil_l|].
  case_bool_decide; [apply sublist_cons, IH|].
  specialize (IH (int_wrap (i + 1))).
  destruct (handle_go m (int_wrap (i + 1)) rest) as [sent e].
  by apply sublist_skip.
Qed.

(** X9: with interval 1, and with interval -1, every record is sent, for
    streams of any length and from any counter value. *)
Theorem interval_one_forwards_all m (i : Z) received :
  interval m = 1%Z ∨ interval m = (-1)%Z →
  handle_go m i received = (Build_Stats (tags m) <$> received, range_closed).
Proof.
  intros Hk. revert i. induction received as [|s rest IH]; intros i; simpl; [done|].
  rewrite bool_decide_false by lia.
  assert (Z.rem i (interval m) = 0%Z) as ->.
  { destruct Hk as [-> | ->]; [apply Z.rem_1_r|].
    change (-1)%Z with (- (1))%Z. rewrite Z.rem_opp_r by lia. apply Z.rem_1_r. }
  rewrite bool_decide_false by (by intros []). by rewrite IH.
Qed.

(** X10: a negative interval acts as its absolute value: two monitors
    with the same tags and opposite intervals send the same values. *)
Theorem negative_interval_as_absolute m m' (i : Z) received :
  tags m' = tags m → interval m' = (- interval m)%Z →
  handle_go m' i received = handle_go m i received.
Proof.
  intros Ht Hk. revert i. induction received as [|s rest IH]; intros i; simpl; [done|].
  rewrite Hk, Ht. destruct (decide (interval m = 0%Z)) as [Hz|Hnz].
  - by rewrite !bool_decide_true by lia.
  - rewrite !(bool_decide_false (_ = 0%Z)) by lia.
    rewrite Z.rem_opp_r by done. by rewrite IH.
Qed.

(** X11: what has been sent does not depend on what is received later:
    the values sent for a stream are a prefix of the values sent for any
    longer stream that starts with it. *)
Theorem handle_go_sends_online m (i : Z) received later :
  (handle_go m i received).1 `prefix_of` (handle_go m i (received ++ later)).1.
Proof.
  revert i. induction received as [|s rest IH]; intros i; simpl; [apply prefix_nil|].
  case_bool_decide; [apply prefix_nil|].
  case_bool_decide; [apply IH|].
  specialize (IH (int_wrap (i + 1))).
  destruct (handle_go m (int_wrap (i + 1)) rest) as [sent e].
  destruct (handle_go m (int_wrap (i + 1)) (rest ++ later)) as [sent' e'].
  by apply prefix_cons.
Qed.


End monitor_structure.


(** * Further properties of identity resolution *)

Section resolution_structure.

Lemma app_cons_str (a : ascii) (s t : string) :
  String a s +:+ t = String a (s +:+ t).
Proof. done. Qed.

Lemma TrimPrefix_empty_iff (s p : string) :
  p ≠ "" → strings.TrimPrefix s p = "" ↔ s = "" ∨ s = p.
Proof.
  intros Hp. unfold strings.TrimPrefix.
  destruct (strings.HasPrefix s p) eqn:Hpre.
  - apply HasPrefix_true in Hpre as [r ->]. rewrite slice_from_app. split.
    + intros ->. right. apply app_empty_str.
    + intros [H|H].
      * destruct p; [done|]. by rewrite app_cons_str in H.
      * rewrite <- (app_empty_str p) in H at 2.
        by apply (inj (String.app p)) in H.
  - split; [auto|]. intros [H | ->]; [done|].
    rewrite <- (app_empty_str p) in Hpre at 1.
    by rewrite HasPrefix_app in Hpre.
Qed.

(** Two entries [key=...] with keys free of ['='] agree on the text up to
    the first ['='] only when the keys are the same. *)
Lemma env_key_unique (k k' r v : string) :
  strings.none_sep (λ a, bool_decide (a = "="%char)) k = true →
  strings.none_sep (λ a, bool_decide (a = "="%char)) k' = true →
  k +:+ "=" +:+ r = k' +:+ "=" +:+ v → k = k'.
Proof.
  revert k'. induction k as [|a k IH]; intros [|b k'] Hk Hk' Heq; simpl in *.
  - done.
  - rewrite app_cons_str in Heq. injection Heq as <- _.
    by rewrite bool_decide_true in Hk' by done.
  - rewrite app_cons_str in Heq. injection Heq as -> _.
    by rewrite bool_decide_true in Hk by done.
  - rewrite !app_cons_str in Heq. injection Heq as -> Heq.
    apply andb_true_iff in Hk as [_ Hk]. apply andb_true_iff in Hk' as [_ Hk'].
    f_equal. by apply IH.
Qed.

(** X13: a non-empty result of [extractEnv] is what follows the prefix in
    an entry that the container's environment really holds. *)
Theorem extractEnv_from_entry (c : docker_Container) (envPrefix : string) :
  extractEnv c envPrefix ≠ "" →
  (envPrefix +:+ extractEnv c envPrefix) ∈ Env (Config c).
Proof.
  unfold extractEnv. induction (Env (Config c)) as [|e env IH]; simpl; [done|].
  destruct (strings.HasPrefix e envPrefix) eqn:Hpre.
  - intros _. apply HasPrefix_true in Hpre as [r ->].
    rewrite TrimPrefix_app. apply list_elem_of_here.
  - intros H. apply list_elem_of_further, IH, H.
Qed.

(** X14: the environment lookup goes by the whole variable name: when
    every entry of the environment is [name=value] for a name without
    ['='] other than [key], looking up [key=] finds nothing, also when
    [key] is the beginning of one of those names. *)
Theorem extractEnv_whole_name (c : docker_Container) (key : string) :
  strings.none_sep (λ a, bool_decide (a = "="%char)) key = true →
  (∀ e, e ∈ Env (Config c) →
     ∃ name value, e = name +:+ "=" +:+ value ∧ name ≠ key
       ∧ strings.none_sep (λ a, bool_decide (a = "="%char)) name = true) →
  extractEnv c (key +:+ "=") = "".
Proof.
  intros Hkey Henv. unfold extractEnv. apply extractEnv_range_none.
  apply Forall_forall. intros e He.
  destruct (Henv e He) as (name & value & -> & Hne & Hname).
  destruct (strings.HasPrefix _ _) eqn:Hpre; [|done].
  apply HasPrefix_true in Hpre as [r Hr]. rewrite app_assoc_str in Hr.
  destruct Hne. symmetry in Hr. symmetry. by eapply env_key_unique.
Qed.

Lemma extractMetadata_empty (c : docker_Container) (label envPrefix missing : string) :
  missing ≠ "" → extractMetadata c label envPrefix missing = "" →
  Labels (Config c) !! label = Some "".
Proof.
  intros Hm. unfold extractMetadata.
  destruct (Labels (Config c) !! label) as [v|]; [by intros ->|].
  simpl. by case_bool_decide.
Qed.

(** X15: the task identity is empty only when a label of the container
    holds the empty string, or when the trim prefix is the whole resolved
    identity; the environment alone never gives an empty task. *)
Theorem empty_task_origin (c : docker_Container) :
  (resolveTask os_Getenv c = "" → ∃ label, Labels (Config c) !! label = Some "")
  ∧ (extractTask os_Getenv c = "" →
     (∃ label, Labels (Config c) !! label = Some "")
     ∨ (extractEnv c taskEnvLocationTrimPrefix ≠ ""
        ∧ resolveTask os_Getenv c = extractEnv c taskEnvLocationTrimPrefix)).
Proof.
  assert (resolveTask os_Getenv c = "" →
          ∃ label, Labels (Config c) !! label = Some "") as Hres.
  { unfold resolveTask. case_bool_decide; intros E;
      apply extractMetadata_empty in E; by eauto. }
  split; [done|]. unfold extractTask. case_bool_decide as Hp; [|auto].
  intros [He|He]%TrimPrefix_empty_iff; [auto|by right|done].
Qed.

(** X16: after a successful inspection [NewMonitor] declines the
    container with [ErrNoNeedToMonitor] exactly when the resolved app
    identity is empty or is the trim prefix itself. *)
Theorem NewMonitor_declines_iff
    (c : MonitorDockerClient docker_Stats docker_error) (cid : string) (k : Z)
    (container : docker_Container) :
  InspectContainer c cid = inl container →
  NewMonitor os_Getenv c cid k = (None, Some ErrNoNeedToMonitor)
  ↔ resolveApp os_Getenv container = ""
    ∨ resolveApp os_Getenv container = extractEnv container appEnvLocationTrimPrefix.
Proof.
  intros Hc. unfold NewMonitor. rewrite Hc.
  assert (extractApp os_Getenv container = ""
          ↔ resolveApp os_Getenv container = ""
            ∨ resolveApp os_Getenv container
              = extractEnv container appEnvLocationTrimPrefix) as <-.
  { unfold extractApp. case_bool_decide as Hp.
    - by apply TrimPrefix_empty_iff.
    - rewrite Hp. split; [auto|by intros [?|?]]. }
  case_bool_decide; naive_solver.
Qed.

(** X17: whatever the collector's own environment holds, the direct
    label names are not empty and the direct environment prefixes are a
    non-empty variable name followed by ['=']; a variable that is unset
    or empty leaves the default name in place. *)
Theorem configured_keys_not_empty :
  appLabel os_Getenv ≠ "" ∧ taskLabel os_Getenv ≠ ""
  ∧ (∃ name, name ≠ "" ∧ appEnvPrefix os_Getenv = name +:+ "=")
  ∧ (∃ name, name ≠ "" ∧ taskEnvPrefix os_Getenv = name +:+ "=")
  ∧ (os_Getenv "APP_LABEL_KEY" = "" → appLabel os_Getenv = "app_id")
  ∧ (os_Getenv "TASK_LABEL_KEY" = "" → taskLabel os_Getenv = "collectd_docker_task")
  ∧ (os_Getenv "APP_ENV_KEY" = "" → appEnvPrefix os_Getenv = "MARATHON_APP_ID=")
  ∧ (os_Getenv "TASK_ENV_KEY" = "" → taskEnvPrefix os_Getenv = "MESOS_TASK_ID=").
Proof.
  assert (∀ env d, d ≠ "" → Getenv os_Getenv env d ≠ "") as Hne.
  { intros env d Hd. unfold Getenv. case_bool_decide as Hl; [|done].
    intros E. rewrite E in Hl. simpl in Hl. lia. }
  assert (∀ env d, os_Getenv env = "" → Getenv os_Getenv env d = d) as Hdef.
  { intros env d E. unfold Getenv. by rewrite E. }
  unfold appLabel, taskLabel, appEnvPrefix, taskEnvPrefix.
  split_and!; try (by apply Hne); try (by intros E; rewrite Hdef by done).
  - eexists. split; [|done]. by apply Hne.
  - eexists. split; [|done]. by apply Hne.
Qed.

End resolution_structure.


(** * End-to-end properties *)

Section end_to_end.

Local Ltac lit_ne :=
  let H := fresh in
  intros H; cbv beta iota fix delta [String.append] in H; discriminate H.

Lemma task_tags_single (tags0 : gmap string string) (T : string) :
  strings.none_sep regexp.dash_or_dot T = true →
  extractTagsFromTask tags0 T = <["task1" := T]> (<["task" := T]> tags0).
Proof.
  intros Hn. unfold extractTagsFromTask, regexp.Split_dash_dot.
  by rewrite cut_none_sep.
Qed.

Lemma resolveTask_default (c : docker_Container) :
  Labels (Config c) !! taskLocationLabel = None →
  extractEnv c taskEnvLocationPrefix = "" →
  Labels (Config c) !! (taskLabel os_Getenv) = None →
  extractEnv c (taskEnvPrefix os_Getenv) = "" →
  resolveTask os_Getenv c = "default".
Proof.
  intros Hll Hle Hdl Hde. unfold resolveTask.
  rewrite extractMetadata_env_empty by done. rewrite Hle. simpl.
  rewrite extractMetadata_env by done. by rewrite Hde.
Qed.

(** X18: an app identity without a group path, that is a name without
    ['/'] or such a name after one leading ['/'], gets exactly [app_id],
    the name as [app] and ["/"] as [group], and no numbered group tag. *)
Theorem app_tags_without_group_path (tags0 : gmap string string) (A name : string) :
  strings.none_sep (λ a, bool_decide (a = "/"%char)) name = true →
  A = name ∨ A = "/" +:+ name →
  extractTagsFromApp tags0 A
  = <["group" := "/"]> (<["app" := name]> (<["app_id" := A]> tags0)).
Proof.
  intros Hn HA. unfold extractTagsFromApp.
  assert (strings.Split A "/" = [name] ∨ strings.Split A "/" = [""; name]) as Hs.
  { unfold strings.Split. destruct HA as [-> | ->].
    - left. by apply cut_none_sep.
    - right. change ("/" +:+ name) with (String "/" name). simpl.
      by rewrite cut_none_sep. }
  by destruct Hs as [-> | ->].
Qed.

(** X19: for a container without any task key and without a task trim
    prefix, the monitor that [NewMonitor] returns has the task identity
    ["default"], and its tags hold ["default"] as [task] and as [task1]
    and no [task2]. *)
Theorem monitor_of_taskless_container
    (c : MonitorDockerClient docker_Stats docker_error) (cid : string) (k : Z)
    (container : docker_Container) (m : Monitor docker_Stats docker_error) :
  InspectContainer c cid = inl container →
  Labels (Config container) !! taskLocationLabel = None →
  extractEnv container taskEnvLocationPrefix = "" →
  Labels (Config container) !! (taskLabel os_Getenv) = None →
  extractEnv container (taskEnvPrefix os_Getenv) = "" →
  extractEnv container taskEnvLocationTrimPrefix = "" →
  NewMonitor os_Getenv c cid k = (Some m, None) →
  task m = "default"
  ∧ tags m !! "task" = Some "default"
  ∧ tags m !! "task1" = Some "default"
  ∧ tags m !! "task2" = None.
Proof.
  intros Hc Hll Hle Hdl Hde Htrim. unfold NewMonitor. rewrite Hc.
  case_bool_decide; [done|]. intros [= <-]. simpl.
  assert (extractTask os_Getenv container = "default") as ->.
  { unfold extractTask. rewrite Htrim. simpl. by apply resolveTask_default. }
  rewrite task_tags_single by done. split_and!; [done| | |].
  - rewrite lookup_insert_ne by done. apply lookup_insert_eq.
  - apply lookup_insert_eq.
  - rewrite !lookup_insert_ne by done.
    destruct (extractTagsFromApp ∅ (extractApp os_Getenv container) !! "task2")
      as [v|] eqn:Hv; [|done].
    apply app_tag_keys in Hv.
    destruct Hv as [Hv|[Hv|[Hv|(j & _ & Hv)]]]; revert Hv; lit_ne.
Qed.

End end_to_end.


End Claims.

(** * The claims on the sample containers *)

Lemma resolution_by_location_witness :
  default (extractEnv c_dangling appEnvLocationPrefix)
          (Labels (Config c_dangling) !! appLocationLabel) ≠ ""
  ∧ resolveApp no_env c_dangling = "".
Proof.
  split; [discriminate|].
  pose proof (proj1 (resolution_by_location no_env c_dangling)) as H.
  cbv zeta in H. rewrite H; [reflexivity|discriminate].
Defined.

(** C1 as stated fails: the location label names a label that the
    container does not have, no environment entry stands in for it, and
    the app identity is empty although the direct label is there. *)
Lemma dangling_location_hides_direct_label :
  extractMetadata c_dangling appLocationLabel appEnvLocationPrefix "" = "service"
  ∧ Labels (Config c_dangling) !! "service" = None
  ∧ extractEnv c_dangling "service=" = ""
  ∧ extractMetadata c_dangling (appLabel no_env) (appEnvPrefix no_env) ""
    = "/infra/web/api"
  ∧ resolveApp no_env c_dangling = ""
  ∧ extractApp no_env c_dangling
    ≠ extractMetadata c_dangling (appLabel no_env) (appEnvPrefix no_env) "".
Proof. split_and!; [reflexivity..|discriminate]. Qed.

Lemma infra_web_api_tags_witness :
  Labels (Config c_api) !! appLocationLabel = None
  ∧ extractEnv c_api appEnvLocationPrefix = ""
  ∧ extractEnv c_api appEnvLocationTrimPrefix = ""
  ∧ Labels (Config c_api) !! appLabel no_env = Some "/infra/web/api"
  ∧ extractTagsFromApp ∅ (extractApp no_env c_api)
    = {[ "app_id" := "/infra/web/api"; "app" := "api"; "group" := "/infra/web";
         "group1" := "/infra"; "group2" := "/infra/web" ]}.
Proof.
  split_and!; [reflexivity..|].
  apply (infra_web_api_tags no_env c_api); reflexivity.
Defined.

(** C2 as stated fails: the tags of ["/infra/web/api"] are not the four
    of the claim; [group] keeps the leading ['/'], [group1] is ["/infra"]
    and there is a [group2]. *)
Lemma infra_web_api_claimed_tags_differ :
  extractApp no_env c_api = "/infra/web/api"
  ∧ extractTagsFromApp ∅ (extractApp no_env c_api)
    ≠ {[ "app_id" := "/infra/web/api"; "app" := "api"; "group" := "infra/web";
         "group1" := "infra/web" ]}
  ∧ extractTagsFromApp ∅ (extractApp no_env c_api) !! "group" = Some "/infra/web"
  ∧ extractTagsFromApp ∅ (extractApp no_env c_api) !! "group1" = Some "/infra"
  ∧ extractTagsFromApp ∅ (extractApp no_env c_api) !! "group2" = Some "/infra/web".
Proof.
  split_and!; [reflexivity| |reflexivity..].
  intros H. apply (f_equal (λ t : gmap string string, t !! "group")) in H.
  vm_compute in H. discriminate H.
Qed.

Lemma extractTagsFromApp_tags_witness :
  1 < length (take (length (strings.Split "a/b/c/d" "/") - 1)
                   (strings.Split "a/b/c/d" "/"))
  ∧ extractTagsFromApp ∅ "a/b/c/d" !! "group" = Some "a/b/c"
  ∧ extractTagsFromApp ∅ "a/b/c/d" !! ("group" +:+ strconv.Itoa 2) = Some "a/b/c".
Proof.
  assert (1 < length (take (length (strings.Split "a/b/c/d" "/") - 1)
                           (strings.Split "a/b/c/d" "/"))) as Hlen
    by (vm_compute; lia).
  split; [exact Hlen|].
  pose proof (extractTagsFromApp_tags ∅ "a/b/c/d") as H. cbv zeta in H.
  destruct H as (_ & _ & _ & _ & _ & H & _).
  destruct (H Hlen) as [Hgroup Hnumbered]. split; [exact Hgroup|].
  apply (Hnumbered 2). vm_compute. lia.
Defined.

Lemma extractTagsFromTask_tags_witness :
  regexp.Split_dash_dot "worker-7.canary" !! 1 = Some "7"
  ∧ extractTagsFromTask ∅ "worker-7.canary" !! "task2" = Some "7"
  ∧ strings.none_sep regexp.dash_or_dot "standalone" = true
  ∧ extractTagsFromTask ∅ "standalone"
    = <["task1" := "standalone"]> (<["task" := "standalone"]> ∅).
Proof.
  split; [reflexivity|].
  pose proof (extractTagsFromTask_tags ∅ "worker-7.canary") as H. cbv zeta in H.
  destruct H as (_ & _ & _ & H & _).
  split; [apply (H 1 "7"); reflexivity|].
  split; [reflexivity|].
  pose proof (extractTagsFromTask_tags ∅ "standalone") as H'. cbv zeta in H'.
  destruct H' as (_ & _ & _ & _ & H' & _). apply H'. reflexivity.
Defined.

Lemma sampler_forwards_every_kth_witness :
  client_Stats (client m3) (id m3) = ([10; 11; 12; 13; 14; 15; 16], None)
  ∧ (0 < interval m3)%Z
  ∧ (Z.of_nat (length [10; 11; 12; 13; 14; 15; 16]) ≤ 2 ^ 63)%Z
  ∧ (handle m3).1.2 = range_closed
  ∧ (handle m3).2 = None
  ∧ Z.of_nat (length (handle m3).1.1) = 3%Z
  ∧ (handle m3).1.1 !! 1 = Some (Build_Stats {[ "app" := "api" ]} 13)
  ∧ (handle m3).1.1 !! 2 = Some (Build_Stats {[ "app" := "api" ]} 16).
Proof.
  assert (client_Stats (client m3) (id m3) = ([10; 11; 12; 13; 14; 15; 16], None))
    as Hc by reflexivity.
  assert (0 < interval m3)%Z as Hk by (simpl; lia).
  assert (Z.of_nat (length [10; 11; 12; 13; 14; 15; 16]) ≤ 2 ^ 63)%Z as Hn
    by (simpl; lia).
  split; [exact Hc|]. split; [exact Hk|]. split; [exact Hn|].
  pose proof (sampler_forwards_every_kth nat string m3
                [10; 11; 12; 13; 14; 15; 16] None Hc Hk Hn) as H.
  cbv zeta in H. destruct H as (Hend & Herr & Hlen & _ & Hsent).
  split; [exact Hend|]. split; [exact Herr|]. split; [exact Hlen|].
  split; [exact (Hsent 1)|exact (Hsent 2)].
Defined.

Lemma resolution_precedence_witness :
  Labels (Config c_located) !! appLocationLabel = Some "service"
  ∧ "service" ≠ ""
  ∧ Labels (Config c_located) !! "service" = Some "svc-42"
  ∧ Labels (Config c_located) !! appLabel no_env = Some "other"
  ∧ resolveApp no_env c_located = "svc-42"
  ∧ extractApp no_env c_located = "svc-42".
Proof.
  split; [reflexivity|]. split; [discriminate|].
  split; [reflexivity|]. split; [reflexivity|].
  destruct (proj1 (resolution_precedence no_env c_located) "service" "svc-42")
    as [Hr Ht]; [reflexivity|discriminate|reflexivity|].
  split; [exact Hr|]. apply Ht. reflexivity.
Defined.

Lemma trim_prefix_applied_witness :
  "/prod" ≠ ""
  ∧ extractEnv c_trim appEnvLocationTrimPrefix = "/prod"
  ∧ resolveApp no_env c_trim = "/prod" +:+ "/web"
  ∧ extractApp no_env c_trim = "/web".
Proof.
  split; [discriminate|]. split; [reflexivity|]. split; [reflexivity|].
  assert ("/prod" ≠ "") as Hp by discriminate.
  destruct (proj1 (trim_prefix_applied no_env c_trim "/prod" Hp)) as [Hcut _];
    [reflexivity|].
  apply Hcut. reflexivity.
Defined.

Lemma NewMonitor_outcomes_witness :
  InspectContainer sample_client "0000" = inr "no such container"
  ∧ NewMonitor no_env sample_client "0000" 5
    = (None, Some (client_error "no such container")).
Proof.
  split; [reflexivity|].
  apply (proj1 (NewMonitor_outcomes no_env nat string sample_client "0000" 5)).
  reflexivity.
Defined.

Lemma interval_not_validated_witness :
  InspectContainer sample_client "4f1d2c" = inl c_api
  ∧ extractApp no_env c_api ≠ ""
  ∧ ∃ m, NewMonitor no_env sample_client "4f1d2c" 0 = (Some m, None)
         ∧ interval m = 0%Z
         ∧ handle_go m 0 [10; 11] = ([], panic_divide_by_zero).
Proof.
  split; [reflexivity|]. split; [discriminate|].
  pose proof (interval_not_validated no_env nat string sample_client "4f1d2c" 0)
    as (Hnew & Hpanic & _).
  destruct (Hnew c_api) as (m & Hm & Hk); [reflexivity|discriminate|].
  exists m. split; [exact Hm|]. split; [exact Hk|]. by apply Hpanic.
Defined.

Lemma extractEnv_first_entry_witness :
  Env (Config c_env) = ["A=1"] ++ ("KEY=" +:+ "first") :: ["KEY=second"]
  ∧ no_entry_with "KEY=" ["A=1"]
  ∧ extractEnv c_env "KEY=" = "first".
Proof.
  assert (no_entry_with "KEY=" ["A=1"]) as Hb by (repeat constructor).
  split; [reflexivity|]. split; [exact Hb|].
  apply (proj1 (extractEnv_first_entry c_env "KEY=") ["A=1"] ["KEY=second"] "first");
    [reflexivity|exact Hb].
Defined.

(** * The further properties on the sample containers *)

Lemma app_id_from_group_and_app_witness :
  extractTagsFromApp ∅ "/infra/web/api" !! "group" = Some "/infra/web"
  ∧ extractTagsFromApp ∅ "/infra/web/api" !! "app" = Some "api"
  ∧ 1 < length (take (length (strings.Split "/infra/web/api" "/") - 1)
                     (strings.Split "/infra/web/api" "/"))
  ∧ "/infra/web" +:+ "/" +:+ "api" = "/infra/web/api".
Proof.
  assert (1 < length (take (length (strings.Split "/infra/web/api" "/") - 1)
                           (strings.Split "/infra/web/api" "/"))) as Hlen
    by (vm_compute; lia).
  split; [reflexivity|]. split; [reflexivity|]. split; [exact Hlen|].
  pose proof (app_id_from_group_and_app ∅ "/infra/web/api" "/infra/web" "api") as H.
  cbv zeta in H. destruct H as [H _]; [reflexivity..|]. exact (H Hlen).
Defined.

Lemma group_tags_nest_witness :
  1 ≤ 1
  ∧ take (length (strings.Split "a/b/c/d" "/") - 1) (strings.Split "a/b/c/d" "/")
      !! (1 + 1) = Some "c"
  ∧ ∃ g1, extractTagsFromApp ∅ "a/b/c/d" !! "group1" = Some g1
          ∧ extractTagsFromApp ∅ "a/b/c/d" !! "group2" = Some (g1 +:+ "/" +:+ "c").
Proof.
  split; [lia|]. split; [reflexivity|].
  pose proof (group_tags_nest ∅ "a/b/c/d") as H. cbv zeta in H.
  destruct H as [H _]. apply (H 1 "c"); [lia|reflexivity].
Defined.

Lemma NewMonitor_monitor_invariants_witness :
  ∃ m, NewMonitor no_env name_client "web" 3 = (Some m, None)
       ∧ id m = "4f1d2c"
       ∧ tags m !! "app_id" = Some (app m)
       ∧ tags m !! "task" = Some (task m).
Proof.
  destruct (NewMonitor no_env name_client "web" 3) as [[m|] e] eqn:Hnew;
    [|vm_compute in Hnew; discriminate Hnew].
  exists m.
  destruct (NewMonitor_monitor_invariants no_env nat string name_client "web" 3 m e Hnew)
    as (-> & container & Hc & _ & Hid & _ & _ & _ & _ & Happ & Htask & _).
  split; [reflexivity|].
  assert (@inl docker_Container string c_api = inl container) as Heq by exact Hc.
  injection Heq as <-.
  split; [exact Hid|]. split; [exact Happ|exact Htask].
Defined.

Lemma interval_one_forwards_all_witness :
  (interval m_minus1 = 1%Z ∨ interval m_minus1 = (-1)%Z)
  ∧ handle_go m_minus1 5 [10; 11; 12]
    = (Build_Stats (tags m_minus1) <$> [10; 11; 12], range_closed).
Proof.
  assert (interval m_minus1 = 1%Z ∨ interval m_minus1 = (-1)%Z) as Hk
    by (right; reflexivity).
  split; [exact Hk|].
  exact (interval_one_forwards_all nat string m_minus1 5 [10; 11; 12] Hk).
Defined.

Lemma negative_interval_as_absolute_witness :
  tags m_minus3 = tags m3
  ∧ interval m_minus3 = (- interval m3)%Z
  ∧ handle_go m_minus3 0 [10; 11; 12; 13; 14; 15; 16]
    = handle_go m3 0 [10; 11; 12; 13; 14; 15; 16].
Proof.
  split; [reflexivity|]. split; [reflexivity|].
  apply (negative_interval_as_absolute nat string m3 m_minus3); reflexivity.
Defined.


Lemma extractEnv_from_entry_witness :
  extractEnv c_env "KEY=" ≠ ""
  ∧ ("KEY=" +:+ extractEnv c_env "KEY=") ∈ Env (Config c_env).
Proof.
  assert (extractEnv c_env "KEY=" ≠ "") as Hne by discriminate.
  split; [exact Hne|]. exact (extractEnv_from_entry c_env "KEY=" Hne).
Defined.

Lemma extractEnv_whole_name_witness :
  strings.none_sep (λ a, bool_decide (a = "="%char)) "APP_ENV" = true
  ∧ Env (Config c_names) = ["APP_ENVIRONMENT" +:+ "=" +:+ "prod"; "PATH" +:+ "=" +:+ "/bin"]
  ∧ extractEnv c_names ("APP_ENV" +:+ "=") = "".
Proof.
  split; [reflexivity|]. split; [reflexivity|].
  apply (extractEnv_whole_name c_names "APP_ENV"); [reflexivity|].
  intros e He. apply list_elem_of_In in He. simpl in He.
  destruct He as [<-|[<-|[]]].
  - exists "APP_ENVIRONMENT", "prod". split; [reflexivity|].
    split; [discriminate|reflexivity].
  - exists "PATH", "/bin". split; [reflexivity|].
    split; [discriminate|reflexivity].
Defined.

Lemma empty_task_origin_witness :
  resolveTask no_env c_empty_task = ""
  ∧ ∃ label, Labels (Config c_empty_task) !! label = Some "".
Proof.
  assert (resolveTask no_env c_empty_task = "") as Hr by reflexivity.
  split; [exact Hr|]. exact (proj1 (empty_task_origin no_env c_empty_task) Hr).
Defined.

Lemma NewMonitor_declines_iff_witness :
  InspectContainer name_client "gone" = inl c_trimmed_away
  ∧ resolveApp no_env c_trimmed_away = "/prod"
  ∧ extractEnv c_trimmed_away appEnvLocationTrimPrefix = "/prod"
  ∧ NewMonitor no_env name_client "gone" 3 = (None, Some ErrNoNeedToMonitor).
Proof.
  split; [reflexivity|]. split; [reflexivity|]. split; [reflexivity|].
  apply (NewMonitor_declines_iff no_env nat string name_client "gone" 3 c_trimmed_away);
    [reflexivity|]. right. reflexivity.
Defined.

Lemma configured_keys_not_empty_witness :
  no_env "APP_LABEL_KEY" = ""
  ∧ appLabel no_env = "app_id"
  ∧ no_env "TASK_ENV_KEY" = ""
  ∧ taskEnvPrefix no_env = "MESOS_TASK_ID=".
Proof.
  destruct (configured_keys_not_empty no_env) as (_ & _ & _ & _ & Ha & _ & _ & Ht).
  split; [reflexivity|]. split; [apply Ha; reflexivity|].
  split; [reflexivity|]. apply Ht. reflexivity.
Defined.

Lemma app_tags_without_group_path_witness :
  strings.none_sep (λ a, bool_decide (a = "/"%char)) "api" = true
  ∧ ("/api" = "api" ∨ "/api" = "/" +:+ "api")
  ∧ extractTagsFromApp ∅ "/api"
    = <["group" := "/"]> (<["app" := "api"]> (<["app_id" := "/api"]> ∅)).
Proof.
  assert ("/api" = "api" ∨ "/api" = "/" +:+ "api") as HA by (right; reflexivity).
  split; [reflexivity|]. split; [exact HA|].
  apply (app_tags_without_group_path ∅ "/api" "api"); [reflexivity|exact HA].
Defined.

Lemma monitor_of_taskless_container_witness :
  InspectContainer name_client "svc" = inl c_located
  ∧ ∃ m, NewMonitor no_env name_client "svc" 3 = (Some m, None)
         ∧ task m = "default"
         ∧ tags m !! "task1" = Some "default"
         ∧ tags m !! "task2" = None.
Proof.
  split; [reflexivity|].
  destruct (NewMonitor no_env name_client "svc" 3) as [[m|] [e|]] eqn:Hnew;
    try (vm_compute in Hnew; discriminate Hnew).
  exists m. split; [reflexivity|].
  destruct (monitor_of_taskless_container no_env nat string name_client "svc" 3
              c_located m) as (Ht & _ & H1 & H2); try reflexivity; [exact Hnew|].
  split; [exact Ht|]. split; [exact H1|exact H2].
Defined.
